(** * The FUSE bridge of File-Roller (src/fr-fuse.c)

    A shallow embedding of the inode table, the kernel-request handlers,
    the lazy extraction pipeline and the mount lifecycle of [FrFuse],
    followed by the properties of the specification that were checked
    against them. *)

From Stdlib Require Import ZArith Lia Sorted.
From stdpp Require Import base gmap strings list fin_maps.

Set Default Proof Using "Type".

(** ** Archive member descriptors *)

(** [FrFileData] is declared in fr-file-data.h; these are the fields the
    bridge reads.  [dir] is what [fr_file_data_is_dir] answers.  Sizes are
    [goffset] values. *)
Module FrFileData.

Record t : Type := mk {
  full_path : string;
  path : string;
  name : string;
  original_path : string;
  size : Z;
  dir_size : Z;
  dir : bool
}.

#[global] Instance eq_dec : EqDecision t.
Proof. solve_decision. Defined.

End FrFileData.

Abbreviation FrFileData := FrFileData.t.

Definition fr_file_data_is_dir (fdata : FrFileData) : bool :=
  FrFileData.dir fdata.

(** Modelled from the spec: [fr_file_data_copy] (fr-file-data.c), the
    "independent deep copy" of a descriptor.  A descriptor is immutable once
    copied, so the copy is modelled by the value it holds. *)
Definition fr_file_data_copy (src : FrFileData) : FrFileData := src.

(** ** The inode table *)

Definition FUSE_ROOT_ID : nat := 1.
Definition FR_FUSE_INODE_START : nat := FUSE_ROOT_ID + 1.

(** [ff->inodes] is a [GPtrArray] whose index is the inode number, a [NULL]
    element ([None]) being a hole; [ff->paths] is the hash table from a full
    path to the descriptor stored under it.  Both are allocated together by
    [fr_fuse_mount] and released together by [fr_fuse_unmount]. *)
Record InodeTable : Type := mkInodeTable {
  inodes : list (option FrFileData);
  paths : gmap string FrFileData
}.

Definition _fr_fuse_create_inode (t : InodeTable) (src : option FrFileData)
  : InodeTable :=
  let fdata := fr_file_data_copy <$> src in
  let added := inodes t ++ [fdata] in
  match fdata with
  | Some d => mkInodeTable added (<[FrFileData.full_path d := d]> (paths t))
  | None => mkInodeTable added (paths t)
  end.

(** The C function returns nothing: the inode number it assigns is the
    index [g_ptr_array_add] stores at, the length of the array before the
    call. *)
Definition created_ino (t : InodeTable) : nat := length (inodes t).

Definition _fr_fuse_delete_inode (t : InodeTable) (ino : nat) : InodeTable :=
  if (ino <=? FUSE_ROOT_ID) || (length (inodes t) <=? ino) then t
  else match inodes t !! ino with
       | Some (Some fdata) =>
           mkInodeTable (<[ino := None]> (inodes t))
                        (delete (FrFileData.full_path fdata) (paths t))
       | _ => t
       end.

Definition _fr_fuse_get_file_by_ino (t : InodeTable) (ino : nat)
  : option FrFileData :=
  if (ino <=? FUSE_ROOT_ID) || (length (inodes t) <=? ino) then None
  else mjoin (inodes t !! ino).

(** The table [fr_fuse_mount] builds: inode 0 and [FUSE_ROOT_ID] reserved. *)
Definition initial_table : InodeTable :=
  _fr_fuse_create_inode
    (_fr_fuse_create_inode (mkInodeTable [] ∅) None) None.

(** Sequences of table operations, for the properties quantified over them. *)
Inductive table_op : Type :=
  | Create (src : option FrFileData)
  | Delete (ino : nat).

Definition apply_op (t : InodeTable) (op : table_op) : InodeTable :=
  match op with
  | Create src => _fr_fuse_create_inode t src
  | Delete ino => _fr_fuse_delete_inode t ino
  end.

Definition apply_ops (t : InodeTable) (ops : list table_op) : InodeTable :=
  foldl apply_op t ops.

(** The inode numbers handed out by the [Create]s of a sequence, in order. *)
Fixpoint created_inos (t : InodeTable) (ops : list table_op) : list nat :=
  match ops with
  | [] => []
  | Create src :: ops' =>
      created_ino t :: created_inos (_fr_fuse_create_inode t src) ops'
  | Delete ino :: ops' => created_inos (_fr_fuse_delete_inode t ino) ops'
  end.

(** ** Replies of the kernel protocol *)

Inductive errno : Type := ENOENT | ENOTDIR | EISDIR | EACCES.

(** <sys/stat.h> and <fcntl.h>, with their Linux values. *)
Definition S_IFDIR : Z := 16384.   (* 0040000 *)
Definition S_IFREG : Z := 32768.   (* 0100000 *)
Definition mode_0755 : Z := 493.
Definition mode_0644 : Z := 420.
Definition O_ACCMODE : Z := 3.
Definition O_RDONLY : Z := 0.
Definition O_WRONLY : Z := 1.
Definition O_RDWR : Z := 2.
Definition O_APPEND : Z := 1024.   (* 02000 *)

(** The fields of [struct stat] the handlers fill in after [memset]. *)
Record stat : Type := mkstat {
  st_ino : nat;
  st_mode : Z;
  st_nlink : Z;
  st_size : Z
}.

(** [struct fuse_entry_param]; both timeouts are always 0.0 and are left
    out. *)
Record fuse_entry_param : Type := mkentry {
  e_ino : nat;
  e_attr : stat
}.

Record fuse_file_info : Type := mkfi {
  flags : Z;
  direct_io : bool
}.

Inductive reply : Type :=
  | fuse_reply_err (e : errno)
  | fuse_reply_entry (e : fuse_entry_param)
  | fuse_reply_attr (st : stat)
  | fuse_reply_buf (buf : list Byte.byte)
  | fuse_reply_open (fi : fuse_file_info).

(** ** Replying with a slice of a buffer *)

(** The cast [(size_t)off] of a 64-bit [off_t]. *)
Definition size_t_of_off_t (off : Z) : Z := off mod 2 ^ 64.

(** [buf] with [bufsize] is the byte array; [buf + off] is the array from
    index [off] on, and [fuse_reply_buf] sends the first [size] bytes of
    what it is given.  [bufsize - off] is computed in [size_t].  A negative
    [off] passes the test only against a buffer of more than 2^63 bytes. *)
Definition _fr_fuse_reply_buf_limited
  (buf : list Byte.byte) (bufsize : Z) (off : Z) (maxsize : Z) : reply :=
  if (size_t_of_off_t off <? bufsize)%Z
  then fuse_reply_buf
         (take (Z.to_nat (Z.min ((bufsize - size_t_of_off_t off) mod 2 ^ 64)
                                maxsize))
               (drop (Z.to_nat off) buf))
  else fuse_reply_buf [].

(** ** What a handler does besides computing *)

(** The context [_fr_fuse_read] hands to the extraction callback, and the one
    that callback hands to the load callback ([ff] and [req] are the bridge
    and the request being served). *)
Record _extract : Type := mk_extract {
  ex_original_path : string;
  ex_off : Z;
  ex_size : Z
}.

Record _load : Type := mk_load {
  ld_off : Z;
  ld_size : Z
}.

(** The calls a handler makes on the outside, in order: an answer to its
    request, the removal of a scratch file, the start of an extraction. *)
Inductive effect : Type :=
  | Reply (r : reply)
  | FileDelete (file : string)
  | ArchiveExtract (file_list : list string) (edata : _extract).

Inductive request : Type :=
  | Lookup (parent : nat) (name : string)
  | Getattr (ino : nat)
  | Readdir (ino : nat) (size : Z) (off : Z)
  | Open (ino : nat) (fi : fuse_file_info)
  | Read (ino : nat) (size : Z) (off : Z)
  | Release (ino : nat).

Inductive GError : Type :=
  | FR_FUSE_ERROR_FUSE_NEW
  | FR_FUSE_ERROR_FUSE_MOUNT
  | G_THREAD_ERROR_AGAIN
  | FR_ERROR_EXTRACT
  | G_IO_ERROR_NOT_FOUND.

(** ** The request handlers *)

Section Handlers.

(** GLib's [g_canonicalize_filename (filename, relative_to)]. *)
Variable g_canonicalize_filename : string → string → string.

(** libfuse's [fuse_add_direntry]: the size of the entry for a name, and the
    bytes written for a name, an inode and the offset of the next entry. *)
Variable fuse_dirent_size : string → nat.
Variable fuse_dirent : string → nat → nat → list Byte.byte.

(** [_g_file_append_path (ff->work_dir, original_path, NULL)]: the scratch
    file of an archive member. *)
Variable scratch_file : string → string.

Definition entry_size (fdata : FrFileData) : Z :=
  if fr_file_data_is_dir fdata
  then FrFileData.dir_size fdata else FrFileData.size fdata.

Definition _fr_fuse_get_size_by_ino (t : InodeTable) (ino : nat) : Z :=
  if bool_decide (ino ≠ FUSE_ROOT_ID) then
    match _fr_fuse_get_file_by_ino t ino with
    | None => 0%Z
    | Some fdata => entry_size fdata
    end
  else
    foldl (λ total_size slot,
             match slot with
             | None => total_size
             | Some fdata =>
                 if bool_decide
                      (g_canonicalize_filename (FrFileData.path fdata) "/" = "/")
                 then (total_size + entry_size fdata)%Z
                 else total_size
             end)
          0%Z (drop FR_FUSE_INODE_START (inodes t)).

(** The directory path a parent inode stands for; [None] when the inode is
    not the root and holds no descriptor. *)
Definition resolve_dir (t : InodeTable) (ino : nat) : option string :=
  if bool_decide (ino = FUSE_ROOT_ID) then Some "/"
  else (λ dir, g_canonicalize_filename (FrFileData.full_path dir) "/")
         <$> _fr_fuse_get_file_by_ino t ino.

Definition file_mode (is_dir : bool) : Z :=
  if is_dir then Z.lor S_IFDIR mode_0755 else Z.lor S_IFREG mode_0644.

(** The scan of [_fr_fuse_lookup], from slot [i] on; [slots] is the rest of
    the array. *)
Fixpoint lookup_scan (t : InodeTable) (path name : string)
  (i : nat) (slots : list (option FrFileData)) : option fuse_entry_param :=
  match slots with
  | [] => None
  | None :: rest => lookup_scan t path name (S i) rest
  | Some fdata :: rest =>
      if bool_decide
           (g_canonicalize_filename (FrFileData.path fdata) "/" = path)
         && bool_decide (FrFileData.name fdata = name)
      then Some (mkentry i
                   (mkstat i (file_mode (fr_file_data_is_dir fdata)) 1
                      (_fr_fuse_get_size_by_ino t i)))
      else lookup_scan t path name (S i) rest
  end.

Definition _fr_fuse_lookup (t : InodeTable) (parent : nat) (name : string)
  : list effect :=
  match resolve_dir t parent with
  | None => [Reply (fuse_reply_err ENOTDIR)]
  | Some path =>
      if bool_decide (name = ".") then
        [Reply (fuse_reply_entry
                  (mkentry FUSE_ROOT_ID
                     (mkstat FUSE_ROOT_ID (Z.lor S_IFDIR mode_0755) 1
                        (_fr_fuse_get_size_by_ino t FUSE_ROOT_ID))))]
      else
        match lookup_scan t path name FR_FUSE_INODE_START
                (drop FR_FUSE_INODE_START (inodes t)) with
        | Some e => [Reply (fuse_reply_entry e)]
        | None => [Reply (fuse_reply_err ENOENT)]
        end
  end.

Definition _fr_fuse_getattr (t : InodeTable) (ino : nat) : list effect :=
  let attr is_dir :=
    [Reply (fuse_reply_attr
              (mkstat ino (file_mode is_dir) 1
                 (_fr_fuse_get_size_by_ino t ino)))] in
  if bool_decide (ino = FUSE_ROOT_ID) then attr true
  else match _fr_fuse_get_file_by_ino t ino with
       | None => [Reply (fuse_reply_err ENOENT)]
       | Some fdata => attr (fr_file_data_is_dir fdata)
       end.

(** [_fr_fuse_dirbuf_add]: the buffer grows by the size of the entry, and
    the entry is written into the new room. *)
Definition _fr_fuse_dirbuf_add (b : list Byte.byte) (name : string)
  (ino : nat) : list Byte.byte :=
  let size := length b + fuse_dirent_size name in
  b ++ resize (fuse_dirent_size name) Byte.x00 (fuse_dirent name ino size).

Fixpoint readdir_scan (dir_path : string) (i : nat)
  (slots : list (option FrFileData)) (b : list Byte.byte) : list Byte.byte :=
  match slots with
  | [] => b
  | None :: rest => readdir_scan dir_path (S i) rest b
  | Some fdata :: rest =>
      readdir_scan dir_path (S i) rest
        (if bool_decide
              (g_canonicalize_filename (FrFileData.path fdata) "/" = dir_path)
         then _fr_fuse_dirbuf_add b (FrFileData.name fdata) i
         else b)
  end.

Definition _fr_fuse_readdir (t : InodeTable) (ino : nat) (size : Z) (off : Z)
  : list effect :=
  match resolve_dir t ino with
  | None => [Reply (fuse_reply_err ENOTDIR)]
  | Some dir_path =>
      let b := readdir_scan dir_path FR_FUSE_INODE_START
                 (drop FR_FUSE_INODE_START (inodes t)) [] in
      [Reply (_fr_fuse_reply_buf_limited b (Z.of_nat (length b)) off size)]
  end.

Definition _fr_fuse_open (t : InodeTable) (ino : nat) (fi : fuse_file_info)
  : list effect :=
  if bool_decide (ino = FUSE_ROOT_ID) then [Reply (fuse_reply_err EISDIR)]
  else if bool_decide (Z.land (flags fi) O_ACCMODE ≠ O_RDONLY)
  then [Reply (fuse_reply_err EACCES)]
  else match _fr_fuse_get_file_by_ino t ino with
       | None => [Reply (fuse_reply_err ENOENT)]
       | Some fdata =>
           if fr_file_data_is_dir fdata then [Reply (fuse_reply_err EISDIR)]
           else [Reply (fuse_reply_open (mkfi (flags fi) true))]
       end.

Definition _fr_fuse_read (t : InodeTable) (ino : nat) (size : Z) (off : Z)
  : list effect :=
  if bool_decide (ino = FUSE_ROOT_ID) then [Reply (fuse_reply_err EISDIR)]
  else match _fr_fuse_get_file_by_ino t ino with
       | None => [Reply (fuse_reply_err ENOENT)]
       | Some fdata =>
           if fr_file_data_is_dir fdata then [Reply (fuse_reply_err EISDIR)]
           else [ArchiveExtract [FrFileData.original_path fdata]
                   (mk_extract (FrFileData.original_path fdata) off size)]
       end.

(** [work] holds the files of the scratch directory; [g_file_query_exists]
    asks whether it has one under the given name. *)
Definition _fr_fuse_release (t : InodeTable)
  (work : gmap string (list Byte.byte)) (ino : nat) : list effect :=
  match _fr_fuse_get_file_by_ino t ino with
  | None => [Reply (fuse_reply_err ENOENT)]
  | Some fdata =>
      if fr_file_data_is_dir fdata then [Reply (fuse_reply_err EISDIR)]
      else
        let extracted_file := scratch_file (FrFileData.original_path fdata) in
        if bool_decide (is_Some (work !! extracted_file))
        then [FileDelete extracted_file]
        else []
  end.

(** [lowlevel_ops]: the handler registered for each kind of request. *)
Definition lowlevel_ops (t : InodeTable)
  (work : gmap string (list Byte.byte)) (r : request) : list effect :=
  match r with
  | Lookup parent name => _fr_fuse_lookup t parent name
  | Getattr ino => _fr_fuse_getattr t ino
  | Readdir ino size off => _fr_fuse_readdir t ino size off
  | Open ino fi => _fr_fuse_open t ino fi
  | Read ino size off => _fr_fuse_read t ino size off
  | Release ino => _fr_fuse_release t work ino
  end.

(** ** The extraction pipeline *)

(** What the handlers and callbacks see of the outside: the last-error slot
    [ff->error], the files of the scratch directory [ff->work_dir], and the
    contents of the archive members by original path. *)
Record world : Type := mkworld {
  ff_error : option GError;
  work : gmap string (list Byte.byte);
  members : gmap string (list Byte.byte)
}.

(** Modelled from the spec: [fr_archive_extract] (fr-archive.c) with
    overwrite off, "a no-op per member whose destination already exists";
    a member the archive does not have is the failure the callback is told
    of. *)
Definition fr_archive_extract (w : world) (file_list : list string)
  : world * option GError :=
  foldl (λ '(w, result) member,
           if bool_decide (is_Some (work w !! scratch_file member))
           then (w, result)
           else match members w !! member with
                | Some bytes =>
                    (mkworld (ff_error w)
                       (<[scratch_file member := bytes]> (work w))
                       (members w),
                     result)
                | None => (w, Some FR_ERROR_EXTRACT)
                end)
        (w, None) file_list.

(** [fr_archive_operation_finish] and [g_file_load_contents_finish] store a
    failure in [ff->error]. *)
Definition record_error (w : world) (result : option GError) : world :=
  match result with
  | Some e => mkworld (Some e) (work w) (members w)
  | None => w
  end.

(** The callback of the extraction: the file to load, and the context of the
    load callback. *)
Definition _fr_fuse_on_extracted (w : world) (edata : _extract)
  (result : option GError) : world * string * _load :=
  (record_error w result,
   scratch_file (ex_original_path edata),
   mk_load (ex_off edata) (ex_size edata)).

(** [g_file_load_contents_async] on a file of the scratch directory. *)
Definition g_file_load_contents (w : world) (file : string)
  : list Byte.byte + GError :=
  match work w !! file with
  | Some bytes => inl bytes
  | None => inr G_IO_ERROR_NOT_FOUND
  end.

(** The callback of the load: on failure [buffer] stays [NULL] and [size]
    0. *)
Definition _fr_fuse_on_loaded (w : world) (ldata : _load)
  (loaded : list Byte.byte + GError) : world * reply :=
  match loaded with
  | inl buffer =>
      (w, _fr_fuse_reply_buf_limited buffer (Z.of_nat (length buffer))
            (ld_off ldata) (ld_size ldata))
  | inr e =>
      (record_error w (Some e),
       _fr_fuse_reply_buf_limited [] 0 (ld_off ldata) (ld_size ldata))
  end.

(** One effect carried out, with the answers the request receives from it;
    an extraction runs its two callbacks to the end. *)
Definition run_effect (w : world) (e : effect) : world * list reply :=
  match e with
  | Reply r => (w, [r])
  | FileDelete file =>
      (mkworld (ff_error w) (delete file (work w)) (members w), [])
  | ArchiveExtract file_list edata =>
      let '(w1, result) := fr_archive_extract w file_list in
      let '(w2, extracted_file, ldata) :=
        _fr_fuse_on_extracted w1 edata result in
      let '(w3, r) :=
        _fr_fuse_on_loaded w2 ldata (g_file_load_contents w2 extracted_file) in
      (w3, [r])
  end.

Definition run_effects (w : world) (es : list effect) : world * list reply :=
  foldl (λ '(w, replies) e,
           let '(w', rs) := run_effect w e in (w', replies ++ rs))
        (w, []) es.

(** A request served to the end: the world afterwards and every answer the
    request handle received. *)
Definition serve (t : InodeTable) (w : world) (r : request)
  : world * list reply :=
  run_effects w (lowlevel_ops t (work w) r).

(** The scratch files an effect list asks to delete. *)
Definition deletions (es : list effect) : list string :=
  omap (λ e, match e with FileDelete file => Some file | _ => None end) es.

End Handlers.

(** ** Reconciling the table with the archive *)

(** [FrArchive] (fr-archive.h): the member list [files], and [files_hash],
    which the archive engine keys by original path. *)
Record FrArchive : Type := mkFrArchive {
  files : list FrFileData;
  files_hash : gmap string FrFileData
}.

(** Modelled from the spec: the archive engine behind [members()] and
    [contains(path)], which enters every member of a listing in
    [files_hash] under its original path. *)
Definition archive_of_listing (listing : list FrFileData) : FrArchive :=
  mkFrArchive listing
    (foldl (λ h fdata, <[FrFileData.original_path fdata := fdata]> h)
       ∅ listing).

(** Every listed member can be found in [files_hash]. *)
Definition archive_indexed (a : FrArchive) : Prop :=
  ∀ fdata, fdata ∈ files a →
    is_Some (files_hash a !! FrFileData.original_path fdata).

(** The calls [fr_fuse_update_inodes] makes on the table, as a trace. *)
Inductive table_call : Type :=
  | call_delete_inode (ino : nat)
  | call_create_inode (src : FrFileData).

Definition update_remove_step (a : FrArchive)
  (st : InodeTable * list table_call) (i : nat)
  : InodeTable * list table_call :=
  match inodes st.1 !! i with
  | Some (Some fdata) =>
      if bool_decide
           (is_Some (files_hash a !! FrFileData.original_path fdata))
      then st
      else (_fr_fuse_delete_inode st.1 i, st.2 ++ [call_delete_inode i])
  | _ => st
  end.

Definition update_add_step (st : InodeTable * list table_call)
  (fdata : FrFileData) : InodeTable * list table_call :=
  if bool_decide (is_Some (paths st.1 !! FrFileData.full_path fdata))
  then st
  else (_fr_fuse_create_inode st.1 (Some fdata),
        st.2 ++ [call_create_inode fdata]).

(** The two loops of [fr_fuse_update_inodes]; the first runs over the slots
    from [FR_FUSE_INODE_START] to the length of the array, which a deletion
    does not change. *)
Definition update_inodes_loops (a : FrArchive) (t : InodeTable)
  : InodeTable * list table_call :=
  let removed :=
    foldl (update_remove_step a) (t, [])
      (seq FR_FUSE_INODE_START (length (inodes t) - FR_FUSE_INODE_START)) in
  foldl update_add_step removed (files a).

(** ** The bridge and its lifecycle *)

(** [struct _FrFuse].  A [NULL] pointer is [None]; [ff->inodes] and
    [ff->paths] are the two halves of [table]; [fuse] and [loop_thread] are
    the handles of the session and of the thread running its loop. *)
Record FrFuse : Type := mkFrFuse {
  archive : option FrArchive;
  password : option string;
  fuse : option unit;
  table : option InodeTable;
  mount_dir : option string;
  work_dir : option string;
  loop_thread : option unit;
  started : bool;
  error : option GError
}.

(** What the host system answers while a bridge is set up: whether
    [fuse_session_new], [fuse_session_mount] and [g_thread_try_new] succeed,
    and the two directories [_g_file_get_temp_work_dir] hands out. *)
Record host : Type := mkhost {
  fuse_session_new_ok : bool;
  fuse_session_mount_ok : bool;
  g_thread_try_new_ok : bool;
  temp_work_dir : string;
  temp_mount_dir : string
}.

Definition fr_fuse_mount (h : host) (ff : FrFuse) : FrFuse :=
  if started ff then ff
  else if negb (fuse_session_mount_ok h) then
    mkFrFuse (archive ff) (password ff) (fuse ff) (table ff) (mount_dir ff)
      (work_dir ff) (loop_thread ff) (started ff)
      (Some FR_FUSE_ERROR_FUSE_MOUNT)
  else
    let loop_thread' := if g_thread_try_new_ok h then Some () else None in
    let error' :=
      if g_thread_try_new_ok h then error ff else Some G_THREAD_ERROR_AGAIN in
    match error' with
    | Some _ =>
        mkFrFuse (archive ff) (password ff) (fuse ff) (table ff)
          (mount_dir ff) (work_dir ff) loop_thread' (started ff) error'
    | None =>
        mkFrFuse (archive ff) (password ff) (fuse ff) (Some initial_table)
          (mount_dir ff) (work_dir ff) loop_thread' true error'
    end.

(** The instance initialiser, run by [g_object_new]. *)
Definition fr_fuse_init (h : host) : FrFuse :=
  if negb (fuse_session_new_ok h) then
    mkFrFuse None None None None None None None false
      (Some FR_FUSE_ERROR_FUSE_NEW)
  else
    fr_fuse_mount h
      (mkFrFuse None None (Some ()) None (Some (temp_mount_dir h))
         (Some (temp_work_dir h)) None false None).

Definition fr_fuse_new (h : host) (a : FrArchive) (pw : option string)
  : option FrFuse :=
  let ff := fr_fuse_init h in
  match error ff with
  | Some _ => None
  | None =>
      Some (mkFrFuse (Some a) pw (fuse ff) (table ff) (mount_dir ff)
              (work_dir ff) (loop_thread ff) (started ff) (error ff))
  end.

Definition fr_fuse_unmount (ff : FrFuse) : FrFuse :=
  if started ff then
    mkFrFuse (archive ff) (password ff) (fuse ff) None (mount_dir ff)
      (work_dir ff) (loop_thread ff) false (error ff)
  else ff.

Definition fr_fuse_get_mount_dir (ff : FrFuse) : option string :=
  if negb (started ff) then None else mount_dir ff.

(** [fr_fuse_update_inodes]: nothing is done on a bridge that is not
    started; [None] is the dereference of a [NULL] table or archive. *)
Definition fr_fuse_update_inodes (ff : FrFuse)
  : option (FrFuse * list table_call) :=
  if negb (started ff) then Some (ff, [])
  else
    match table ff, archive ff with
    | Some t, Some a =>
        let '(t', calls) := update_inodes_loops a t in
        Some (mkFrFuse (archive ff) (password ff) (fuse ff) (Some t')
                (mount_dir ff) (work_dir ff) (loop_thread ff) (started ff)
                (error ff),
              calls)
    | _, _ => None
    end.

(** ** Agreement of the table and the reverse map *)

(** Every live slot is found in the reverse map under its full path, no two
    live slots share a full path, and the reverse map has nothing else: each
    of its entries is the descriptor of a live slot, under that descriptor's
    full path. *)
Record agreement (t : InodeTable) : Prop := mk_agreement {
  live_slot_mapped : ∀ i d,
    inodes t !! i = Some (Some d) →
    paths t !! FrFileData.full_path d = Some d;
  live_paths_distinct : ∀ i j d d',
    inodes t !! i = Some (Some d) →
    inodes t !! j = Some (Some d') →
    FrFileData.full_path d = FrFileData.full_path d' → i = j;
  mapped_is_live : ∀ p d,
    paths t !! p = Some d →
    FrFileData.full_path d = p ∧ ∃ i, inodes t !! i = Some (Some d)
}.

(** A sequence in which a descriptor is created only while its full path is
    absent from the reverse map, the test [fr_fuse_update_inodes] makes
    before each [_fr_fuse_create_inode]. *)
Fixpoint creates_guarded (t : InodeTable) (ops : list table_op) : Prop :=
  match ops with
  | [] => True
  | op :: ops' =>
      match op with
      | Create (Some d) => paths t !! FrFileData.full_path d = None
      | _ => True
      end
      ∧ creates_guarded (apply_op t op) ops'
  end.

(** ** A small archive, for the examples *)

Definition a_txt : FrFileData :=
  FrFileData.mk "/a.txt" "/" "a.txt" "a.txt" 5 0 false.
Definition dir_entry : FrFileData :=
  FrFileData.mk "/dir/" "/" "dir" "dir/" 0 3 true.
Definition b_txt : FrFileData :=
  FrFileData.mk "/dir/b.txt" "/dir/" "b.txt" "dir/b.txt" 3 0 false.

(** Inode 2 is [a.txt], inode 3 the directory, inode 4 [dir/b.txt]. *)
Definition sample_table : InodeTable :=
  apply_ops initial_table
    [Create (Some a_txt); Create (Some dir_entry); Create (Some b_txt)].

(** Stand-ins for the library functions the handlers are given, for the
    examples only: a relative name is put under [relative_to] and a trailing
    slash is dropped, except from the root; a directory entry is a 24-byte
    header and the name; the scratch directory is /tmp/work. *)
Fixpoint drop_trailing_slash (s : string) : string :=
  match s with
  | EmptyString => EmptyString
  | String c EmptyString => if Ascii.eqb c (Ascii.ascii_of_nat 47) then EmptyString else s
  | String c rest => String c (drop_trailing_slash rest)
  end.
Definition sample_canonicalize (filename relative_to : string) : string :=
  let absolute :=
    if String.prefix "/" filename then filename
    else String.append relative_to filename in
  if String.eqb absolute "/" then "/" else drop_trailing_slash absolute.
Definition sample_dirent_size (name : string) : nat :=
  24 + String.length name.
Definition sample_dirent (name : string) (ino off : nat) : list Byte.byte :=
  replicate 24 Byte.x00 ++ String.list_byte_of_string name.
Definition sample_scratch_file (original_path : string) : string :=
  String.append "/tmp/work/" original_path.

(** The five bytes of a.txt, and a world in which nothing is extracted
    yet. *)
Definition hello : list Byte.byte :=
  [Byte.x68; Byte.x65; Byte.x6c; Byte.x6c; Byte.x6f].
Definition sample_world : world :=
  mkworld None ∅ {["a.txt" := hello]}.

(** ** Notions the further properties are stated with *)

(** The live slots among [slots], the part of the array that starts at
    index [i], each with its inode number, in table order. *)
Fixpoint entries_from (i : nat) (slots : list (option FrFileData))
  : list (nat * FrFileData) :=
  match slots with
  | [] => []
  | None :: rest => entries_from (S i) rest
  | Some fdata :: rest => (i, fdata) :: entries_from (S i) rest
  end.

(** The entries the scans of the handlers go over: the live slots from
    [FR_FUSE_INODE_START] on. *)
Definition live_entries (t : InodeTable) : list (nat * FrFileData) :=
  entries_from FR_FUSE_INODE_START (drop FR_FUSE_INODE_START (inodes t)).

(** The entries whose canonical parent path is [dir_path]. *)
Definition dir_children (canonicalize : string → string → string)
  (t : InodeTable) (dir_path : string) : list (nat * FrFileData) :=
  filter (λ e, canonicalize (FrFileData.path e.2) "/" = dir_path)
    (live_entries t).

(** [fr_fuse_dispose]: a started bridge is unmounted, then the two temporary
    directories are handed to [_g_file_remove_directory] (the second
    component lists them in the order of the calls, a [NULL] directory left
    out) and the references to them and to the archive are cleared. *)
Definition fr_fuse_dispose (ff : FrFuse) : FrFuse * list string :=
  let ff1 := if started ff then fr_fuse_unmount ff else ff in
  (mkFrFuse None (password ff1) (fuse ff1) (table ff1) None None
     (loop_thread ff1) (started ff1) (error ff1),
   omap id [mount_dir ff1; work_dir ff1]).

(** * Properties *)

(** ** The inode table *)

Lemma length_create_inode t src :
  length (inodes (_fr_fuse_create_inode t src)) = S (length (inodes t)).
Proof.
  unfold _fr_fuse_create_inode.
  destruct src; simpl; rewrite length_app; simpl; lia.
Qed.

Lemma length_delete_inode t ino :
  length (inodes (_fr_fuse_delete_inode t ino)) = length (inodes t).
Proof.
  unfold _fr_fuse_delete_inode.
  destruct (_ || _); [done|].
  destruct (inodes t !! ino) as [[fdata|]|]; simpl; try done.
  apply length_insert.
Qed.

Lemma lookup_create_inode t src :
  inodes (_fr_fuse_create_inode t src) !! created_ino t = Some src.
Proof.
  unfold _fr_fuse_create_inode, created_ino, fr_file_data_copy.
  destruct src; simpl.
  - rewrite lookup_app_r by lia. by rewrite Nat.sub_diag.
  - rewrite lookup_app_r by lia. by rewrite Nat.sub_diag.
Qed.

Lemma inodes_create_inode t src :
  inodes (_fr_fuse_create_inode t src) = inodes t ++ [src].
Proof.
  unfold _fr_fuse_create_inode, fr_file_data_copy. by destruct src.
Qed.

Lemma delete_inode_other t ino j :
  j ≠ ino →
  inodes (_fr_fuse_delete_inode t ino) !! j = inodes t !! j.
Proof.
  intros Hne. unfold _fr_fuse_delete_inode.
  destruct (_ || _); [done|].
  destruct (inodes t !! ino) as [[fdata|]|]; simpl; try done.
  by rewrite list_lookup_insert_ne.
Qed.

Lemma delete_inode_slot t ino :
  ino < length (inodes t) →
  inodes (_fr_fuse_delete_inode t ino) !! ino = Some None
  ∨ _fr_fuse_delete_inode t ino = t.
Proof.
  intros Hlt. unfold _fr_fuse_delete_inode.
  destruct (_ || _); [by right|].
  destruct (inodes t !! ino) as [[fdata|]|]; simpl; [|by right..].
  left. by apply list_lookup_insert_eq.
Qed.

Lemma length_apply_op t op :
  length (inodes t) ≤ length (inodes (apply_op t op)).
Proof.
  destruct op; simpl.
  - rewrite length_create_inode. lia.
  - by rewrite length_delete_inode.
Qed.

Lemma apply_ops_app t ops1 ops2 :
  apply_ops t (ops1 ++ ops2) = apply_ops (apply_ops t ops1) ops2.
Proof. apply foldl_app. Qed.

Lemma created_inos_app t ops1 ops2 :
  created_inos t (ops1 ++ ops2)
  = created_inos t ops1 ++ created_inos (apply_ops t ops1) ops2.
Proof.
  revert t. induction ops1 as [|[src|ino] ops1 IH]; intros t; simpl.
  - done.
  - f_equal. apply IH.
  - apply IH.
Qed.

(** Every inode number a sequence hands out is at least the length the table
    had when the sequence began. *)
Lemma created_inos_ge t ops :
  Forall (λ n, length (inodes t) ≤ n) (created_inos t ops).
Proof.
  revert t. induction ops as [|[src|ino] ops IH]; intros t; simpl.
  - constructor.
  - constructor; [done|].
    eapply Forall_impl; [apply IH|]. simpl. intros n.
    rewrite length_create_inode. lia.
  - specialize (IH (_fr_fuse_delete_inode t ino)).
    by rewrite length_delete_inode in IH.
Qed.

Lemma created_inos_increasing t ops :
  StronglySorted lt (created_inos t ops).
Proof.
  revert t. induction ops as [|[src|ino] ops IH]; intros t; simpl.
  - constructor.
  - constructor; [apply IH|].
    eapply Forall_impl; [apply created_inos_ge|]. simpl. intros n.
    rewrite length_create_inode. unfold created_ino. lia.
  - apply IH.
Qed.

(** C1: inode numbers are never reused.  Whatever operations [ops1] came
    before, deleting a slot [i] of the table leaves the table as long as it
    was and changes no slot but [i], which becomes a hole unless the deletion
    does nothing; no [Create] of any operations [ops2] that follow is given
    the number [i]; a [Create] is always given the current length of the
    table, which it raises by one, so that the numbers handed out over the
    whole sequence are strictly increasing. *)
Theorem inode_numbers_never_reused
  (t : InodeTable) (ops1 ops2 : list table_op) (i : nat) :
  i < length (inodes (apply_ops t ops1)) →
  length (inodes (_fr_fuse_delete_inode (apply_ops t ops1) i))
  = length (inodes (apply_ops t ops1))
  ∧ (∀ j, j ≠ i →
       inodes (_fr_fuse_delete_inode (apply_ops t ops1) i) !! j
       = inodes (apply_ops t ops1) !! j)
  ∧ (inodes (_fr_fuse_delete_inode (apply_ops t ops1) i) !! i = Some None
     ∨ _fr_fuse_delete_inode (apply_ops t ops1) i = apply_ops t ops1)
  ∧ (i ∉ created_inos (_fr_fuse_delete_inode (apply_ops t ops1) i) ops2)
  ∧ (∀ t' src,
       created_ino t' = length (inodes t')
       ∧ inodes (_fr_fuse_create_inode t' src) !! created_ino t' = Some src
       ∧ length (inodes (_fr_fuse_create_inode t' src))
         = S (length (inodes t')))
  ∧ StronglySorted lt (created_inos t (ops1 ++ Delete i :: ops2)).
Proof.
  intros Hlt. split_and!.
  - apply length_delete_inode.
  - intros j Hj. by apply delete_inode_other.
  - by apply delete_inode_slot.
  - intros Hin.
    pose proof (created_inos_ge
                  (_fr_fuse_delete_inode (apply_ops t ops1) i) ops2) as Hge.
    rewrite Forall_forall in Hge. apply Hge in Hin.
    rewrite length_delete_inode in Hin. lia.
  - intros t' src. split_and!.
    + done.
    + apply lookup_create_inode.
    + apply length_create_inode.
  - apply created_inos_increasing.
Qed.

Lemma inode_numbers_never_reused_witness :
  2 < length (inodes (apply_ops initial_table [Create (Some a_txt)]))
  ∧ 2 ∉ created_inos
          (_fr_fuse_delete_inode
             (apply_ops initial_table [Create (Some a_txt)]) 2)
          [Create (Some a_txt); Create (Some b_txt)].
Proof.
  split; [simpl; lia|].
  apply (inode_numbers_never_reused initial_table [Create (Some a_txt)]
           [Create (Some a_txt); Create (Some b_txt)] 2).
  simpl; lia.
Defined.

(** ** Agreement is kept by guarded sequences *)

Lemma agreement_initial : agreement initial_table.
Proof.
  split.
  - intros [|[|[|i]]] d; simpl; intros H; discriminate.
  - intros [|[|[|i]]] j d d'; simpl; intros H; discriminate.
  - intros p d. unfold initial_table; simpl. by rewrite lookup_empty.
Qed.

Lemma agreement_create_hole t :
  agreement t → agreement (_fr_fuse_create_inode t None).
Proof.
  intros [Hm Hd Hl]. split; simpl.
  - intros i d Hi. apply lookup_app_Some in Hi as [Hi|[_ Hi]].
    + by eapply Hm.
    + destruct (i - length (inodes t)) as [|k]; simpl in Hi; discriminate.
  - intros i j d d' Hi Hj.
    apply lookup_app_Some in Hi as [Hi|[_ Hi]];
      [|destruct (i - length (inodes t)); simpl in Hi; discriminate].
    apply lookup_app_Some in Hj as [Hj|[_ Hj]];
      [|destruct (j - length (inodes t)); simpl in Hj; discriminate].
    by eapply Hd.
  - intros p d Hp. destruct (Hl p d Hp) as [Hfp [i Hi]].
    split; [done|]. exists i. by apply lookup_app_l_Some.
Qed.

Lemma agreement_create_entry t d :
  agreement t →
  paths t !! FrFileData.full_path d = None →
  agreement (_fr_fuse_create_inode t (Some d)).
Proof.
  intros [Hm Hd Hl] Hfresh.
  assert (Hnew : ∀ i x, (inodes t ++ [Some d]) !! i = Some (Some x) →
            inodes t !! i = Some (Some x) ∨ (i = length (inodes t) ∧ x = d)).
  { intros i x Hi. apply lookup_app_Some in Hi as [Hi|[Hge Hi]]; [by left|].
    right. destruct (i - length (inodes t)) as [|k] eqn:Hk; simpl in Hi;
      [|discriminate].
    split; [lia|congruence]. }
  assert (Hold : ∀ i x, inodes t !! i = Some (Some x) →
            FrFileData.full_path x ≠ FrFileData.full_path d).
  { intros i x Hi Heq. apply Hm in Hi. rewrite Heq in Hi. congruence. }
  split; simpl; unfold fr_file_data_copy.
  - intros i x Hi. destruct (Hnew i x Hi) as [Hi'|[-> ->]].
    + rewrite lookup_insert_ne; [by eapply Hm|].
      intros Heq. by eapply Hold.
    + by rewrite lookup_insert_eq.
  - intros i j x x' Hi Hj Heq.
    destruct (Hnew i x Hi) as [Hi'|[-> ->]];
      destruct (Hnew j x' Hj) as [Hj'|[-> ->]].
    + by eapply Hd.
    + exfalso. by eapply Hold.
    + exfalso. by eapply Hold.
    + done.
  - intros p x Hp.
    destruct (decide (FrFileData.full_path d = p)) as [<-|Hne].
    + rewrite lookup_insert_eq in Hp. injection Hp as <-.
      split; [done|]. exists (length (inodes t)).
      rewrite lookup_app_r by lia. by rewrite Nat.sub_diag.
    + rewrite lookup_insert_ne in Hp by done.
      destruct (Hl p x Hp) as [Hfp [i Hi]].
      split; [done|]. exists i. by apply lookup_app_l_Some.
Qed.

Lemma agreement_delete t ino :
  agreement t → agreement (_fr_fuse_delete_inode t ino).
Proof.
  intros Hagree. pose proof Hagree as [Hm Hd Hl].
  unfold _fr_fuse_delete_inode.
  destruct (_ || _); [done|].
  destruct (inodes t !! ino) as [[fdata|]|] eqn:Hino; [|done..].
  assert (Hkeep : ∀ i x, <[ino:=None]> (inodes t) !! i = Some (Some x) →
            i ≠ ino ∧ inodes t !! i = Some (Some x)).
  { intros i x Hi. destruct (decide (i = ino)) as [->|Hne].
    - rewrite list_lookup_insert_eq in Hi; [discriminate|].
      by eapply lookup_lt_Some.
    - by rewrite list_lookup_insert_ne in Hi. }
  split; simpl.
  - intros i x Hi. destruct (Hkeep i x Hi) as [Hne Hi'].
    rewrite lookup_delete_ne; [by eapply Hm|].
    intros Heq. apply Hne. symmetry. by eapply Hd.
  - intros i j x x' Hi Hj.
    destruct (Hkeep i x Hi) as [_ Hi'], (Hkeep j x' Hj) as [_ Hj'].
    by eapply Hd.
  - intros p x Hp.
    destruct (decide (FrFileData.full_path fdata = p)) as [<-|Hne].
    + by rewrite lookup_delete_eq in Hp.
    + rewrite lookup_delete_ne in Hp by done.
      destruct (Hl p x Hp) as [Hfp [i Hi]].
      split; [done|]. exists i.
      rewrite list_lookup_insert_ne; [done|].
      intros ->. rewrite Hino in Hi. congruence.
Qed.

Lemma agreement_apply_ops t ops :
  agreement t → creates_guarded t ops → agreement (apply_ops t ops).
Proof.
  revert t. induction ops as [|op ops IH]; intros t Hagree Hguard; [done|].
  destruct Hguard as [Hop Hguard]. simpl. apply IH; [|done].
  destruct op as [[d|]|ino]; simpl.
  - by apply agreement_create_entry.
  - by apply agreement_create_hole.
  - by apply agreement_delete.
Qed.

Lemma creates_guarded_take t ops n :
  creates_guarded t ops → creates_guarded t (take n ops).
Proof.
  revert t n. induction ops as [|op ops IH]; intros t [|n]; simpl; try done.
  intros [Hop Hguard]. split; [done|]. by apply IH.
Qed.

(** C2 fails as it is stated: two descriptors with one full path are created,
    the first is deleted, and the second, in the live slot 3, is no longer in
    the reverse map. *)
Lemma agreement_lost_by_repeated_path :
  inodes (apply_ops initial_table
            [Create (Some a_txt); Create (Some a_txt); Delete 2]) !! 3
  = Some (Some a_txt)
  ∧ paths (apply_ops initial_table
             [Create (Some a_txt); Create (Some a_txt); Delete 2])
      !! FrFileData.full_path a_txt
    = None.
Proof. split; vm_compute; reflexivity. Qed.

(** C2, amended: starting from the initial table with its two reserved holes,
    after every operation of a sequence of Create and Delete in which a
    descriptor is created only while its full path is absent from the reverse
    map, every live slot's full path is in the reverse map and maps to the
    descriptor of that slot, the only live slot with that path, and the
    reverse map holds nothing but the descriptors of live slots. *)
Theorem table_map_agreement (ops : list table_op) (n : nat) :
  creates_guarded initial_table ops →
  agreement (apply_ops initial_table (take n ops)).
Proof.
  intros Hguard. apply agreement_apply_ops.
  - apply agreement_initial.
  - by apply creates_guarded_take.
Qed.

Lemma table_map_agreement_witness :
  creates_guarded initial_table
    [Create (Some a_txt); Create (Some b_txt); Delete 2; Create (Some a_txt)]
  ∧ agreement
      (apply_ops initial_table
         (take 4
            [Create (Some a_txt); Create (Some b_txt); Delete 2;
             Create (Some a_txt)])).
Proof.
  assert (creates_guarded initial_table
            [Create (Some a_txt); Create (Some b_txt); Delete 2;
             Create (Some a_txt)]) as Hguard.
  { simpl. split_and!; try done; vm_compute; reflexivity. }
  split; [exact Hguard|].
  exact (table_map_agreement _ 4 Hguard).
Defined.

(** ** The slice a read is answered with *)

Lemma size_t_of_off_t_nonneg off :
  (0 ≤ off < 2 ^ 63)%Z → size_t_of_off_t off = off.
Proof. intros H. unfold size_t_of_off_t. apply Z.mod_small. lia. Qed.

(** A negative offset wraps to a value past the end of any buffer that fits
    in memory, and is answered with nothing. *)
Lemma reply_buf_limited_negative_off buf off maxsize :
  (- 2 ^ 63 ≤ off < 0)%Z →
  (Z.of_nat (length buf) ≤ 2 ^ 63)%Z →
  _fr_fuse_reply_buf_limited buf (Z.of_nat (length buf)) off maxsize
  = fuse_reply_buf [].
Proof.
  intros Hoff Hlen. unfold _fr_fuse_reply_buf_limited, size_t_of_off_t.
  assert (off mod 2 ^ 64 = off + 2 ^ 64)%Z as ->.
  { symmetry. apply (Z.mod_unique_pos _ _ (-1)); lia. }
  destruct (Z.ltb_spec (off + 2 ^ 64) (Z.of_nat (length buf))); [lia|done].
Qed.

Lemma take_min_length {A} (l : list A) n :
  take (n `min` length l) l = take n l.
Proof.
  destruct (Nat.le_ge_cases n (length l)).
  - by rewrite Nat.min_l.
  - rewrite Nat.min_r by done. by rewrite !take_ge.
Qed.

(** C3: the reply to a read of a loaded buffer of length L, at a byte offset
    [off] and for [size] bytes, is the slice from [off] to [off + size] cut at
    L: empty when [off] is at or past L, the L - [off] remaining bytes when
    [off + size] goes past L, and never more or fewer bytes than the smaller
    of [size] and what is left of the buffer.  It is what the load callback of
    the read pipeline answers with. *)
Theorem read_reply_clamped
  (w : world) (buf : list Byte.byte) (off size : Z) :
  (0 ≤ off < 2 ^ 63)%Z →
  (0 ≤ size < 2 ^ 64)%Z →
  (Z.of_nat (length buf) < 2 ^ 64)%Z →
  ∃ bytes,
    _fr_fuse_reply_buf_limited buf (Z.of_nat (length buf)) off size
    = fuse_reply_buf bytes
    ∧ _fr_fuse_on_loaded w (mk_load off size) (inl buf)
      = (w, fuse_reply_buf bytes)
    ∧ bytes = take (Z.to_nat size) (drop (Z.to_nat off) buf)
    ∧ ((Z.of_nat (length buf) ≤ off)%Z → bytes = [])
    ∧ ((off < Z.of_nat (length buf))%Z →
       (Z.of_nat (length buf) < off + size)%Z →
       bytes = drop (Z.to_nat off) buf
       ∧ Z.of_nat (length bytes) = (Z.of_nat (length buf) - off)%Z)
    ∧ Z.of_nat (length bytes)
      = Z.min size (Z.max 0 (Z.of_nat (length buf) - off)).
Proof.
  intros Hoff Hsize Hlen.
  exists (take (Z.to_nat size) (drop (Z.to_nat off) buf)).
  assert (_fr_fuse_reply_buf_limited buf (Z.of_nat (length buf)) off size
          = fuse_reply_buf (take (Z.to_nat size) (drop (Z.to_nat off) buf)))
    as Hreply.
  { unfold _fr_fuse_reply_buf_limited.
    rewrite size_t_of_off_t_nonneg by done.
    destruct (Z.ltb_spec off (Z.of_nat (length buf))) as [Hlt|Hge].
    - rewrite Z.mod_small by lia. f_equal.
      rewrite <- (take_min_length _ (Z.to_nat size)).
      rewrite length_drop. f_equal. lia.
    - f_equal. rewrite drop_ge by lia. by rewrite take_nil. }
  split_and!.
  - done.
  - simpl. by rewrite Hreply.
  - done.
  - intros Hge. rewrite drop_ge by lia. by rewrite take_nil.
  - intros Hlt Hover.
    rewrite take_ge by (rewrite length_drop; lia).
    split; [done|]. rewrite length_drop. lia.
  - rewrite length_take, length_drop. lia.
Qed.

Lemma read_reply_clamped_witness :
  ∃ bytes,
    _fr_fuse_reply_buf_limited
      [Byte.x68; Byte.x65; Byte.x6c; Byte.x6c; Byte.x6f]
      (Z.of_nat 5) 3 10
    = fuse_reply_buf bytes
    ∧ bytes = [Byte.x6c; Byte.x6f].
Proof.
  destruct (read_reply_clamped (mkworld None ∅ ∅)
              [Byte.x68; Byte.x65; Byte.x6c; Byte.x6c; Byte.x6f] 3 10)
    as (bytes & Hreply & _ & Hbytes & _).
  - lia.
  - lia.
  - simpl. lia.
  - exists bytes. split; [exact Hreply|exact Hbytes].
Defined.

(** ** The handlers *)

Section HandlerProperties.

Variable g_canonicalize_filename : string → string → string.
Variable fuse_dirent_size : string → nat.
Variable fuse_dirent : string → nat → nat → list Byte.byte.
Variable scratch_file : string → string.

(** An inode that is not the root and holds no descriptor: the reserved
    inode 0, an inode past the end of the table, or a hole. *)
Lemma get_file_by_ino_unresolved t ino :
  ino ≠ FUSE_ROOT_ID →
  ino = 0 ∨ length (inodes t) ≤ ino ∨ inodes t !! ino = Some None →
  _fr_fuse_get_file_by_ino t ino = None.
Proof.
  intros Hroot Hcases. unfold _fr_fuse_get_file_by_ino.
  destruct (Nat.leb_spec ino FUSE_ROOT_ID); [done|].
  destruct (Nat.leb_spec (length (inodes t)) ino); [done|]. simpl.
  destruct Hcases as [-> | [Hlen | ->]]; [unfold FUSE_ROOT_ID in *; lia|lia|done].
Qed.

Lemma get_file_by_ino_live t ino d :
  FUSE_ROOT_ID < ino →
  inodes t !! ino = Some (Some d) →
  _fr_fuse_get_file_by_ino t ino = Some d.
Proof.
  intros Hino Hslot. unfold _fr_fuse_get_file_by_ino.
  destruct (Nat.leb_spec ino FUSE_ROOT_ID); [lia|].
  apply lookup_lt_Some in Hslot as Hlen.
  destruct (Nat.leb_spec (length (inodes t)) ino); [lia|]. simpl.
  by rewrite Hslot.
Qed.

Lemma get_file_by_ino_Some t ino d :
  _fr_fuse_get_file_by_ino t ino = Some d →
  FUSE_ROOT_ID < ino ∧ inodes t !! ino = Some (Some d).
Proof.
  unfold _fr_fuse_get_file_by_ino.
  destruct (Nat.leb_spec ino FUSE_ROOT_ID); [done|].
  destruct (Nat.leb_spec (length (inodes t)) ino); [done|]. simpl.
  destruct (inodes t !! ino) as [[x|]|]; simpl; intros; simplify_eq. done.
Qed.


(** The answer to a lookup of "." under any parent that resolves. *)
Lemma lookup_dot t parent :
  is_Some (resolve_dir g_canonicalize_filename t parent) →
  _fr_fuse_lookup g_canonicalize_filename t parent "."
  = [Reply (fuse_reply_entry
              (mkentry FUSE_ROOT_ID
                 (mkstat FUSE_ROOT_ID (Z.lor S_IFDIR mode_0755) 1
                    (_fr_fuse_get_size_by_ino g_canonicalize_filename t
                       FUSE_ROOT_ID))))].
Proof. intros [path Hpath]. unfold _fr_fuse_lookup. by rewrite Hpath. Qed.

(** A release of a live regular file makes no call on its request. *)
Lemma release_of_file_effects t work ino fdata :
  _fr_fuse_get_file_by_ino t ino = Some fdata →
  fr_file_data_is_dir fdata = false →
  _fr_fuse_release scratch_file t work ino
  = if bool_decide
         (is_Some (work !! scratch_file (FrFileData.original_path fdata)))
    then [FileDelete (scratch_file (FrFileData.original_path fdata))]
    else [].
Proof. intros Hget Hdir. unfold _fr_fuse_release. by rewrite Hget, Hdir. Qed.

Lemma run_effect_extract_one_reply w file_list edata :
  length (run_effect scratch_file w (ArchiveExtract file_list edata)).2 = 1.
Proof.
  unfold run_effect.
  destruct (fr_archive_extract _ _ _) as [w1 result].
  destruct (_fr_fuse_on_extracted _ _ _ _) as [[w2 extracted_file] ldata].
  by destruct (_fr_fuse_on_loaded _ _ _) as [w3 r].
Qed.

Lemma run_effects_single w e :
  run_effects scratch_file w [e] = run_effect scratch_file w e.
Proof.
  unfold run_effects. cbn [foldl].
  by destruct (run_effect scratch_file w e) as [w' rs].
Qed.

(** Every request but the release of a live regular file is answered exactly
    once, at once or when its extraction and load have completed. *)
Lemma serve_answers_once t w r :
  (∀ ino fdata, r = Release ino →
     _fr_fuse_get_file_by_ino t ino = Some fdata →
     fr_file_data_is_dir fdata = true) →
  length (serve g_canonicalize_filename fuse_dirent_size fuse_dirent
     scratch_file t w r).2 = 1.
Proof.
  intros Hrelease. unfold serve, lowlevel_ops.
  destruct r as [parent name|ino|ino size off|ino fi|ino size off|ino].
  - unfold _fr_fuse_lookup.
    destruct (resolve_dir _ _ _); [|done].
    destruct (bool_decide _); [done|]. by destruct (lookup_scan _ _ _ _ _ _).
  - unfold _fr_fuse_getattr.
    destruct (bool_decide _); [done|].
    by destruct (_fr_fuse_get_file_by_ino _ _).
  - unfold _fr_fuse_readdir. by destruct (resolve_dir _ _ _).
  - unfold _fr_fuse_open.
    destruct (bool_decide _); [done|]. destruct (bool_decide _); [done|].
    destruct (_fr_fuse_get_file_by_ino _ _) as [fdata|]; [|done].
    by destruct (fr_file_data_is_dir fdata).
  - unfold _fr_fuse_read.
    destruct (bool_decide _); [done|].
    destruct (_fr_fuse_get_file_by_ino _ _) as [fdata|]; [|done].
    destruct (fr_file_data_is_dir fdata); [done|].
    rewrite run_effects_single. apply run_effect_extract_one_reply.
  - unfold _fr_fuse_release.
    destruct (_fr_fuse_get_file_by_ino t ino) as [fdata|] eqn:Hget; [|done].
    by rewrite (Hrelease ino fdata eq_refl Hget).
Qed.

(** C4, at an input where it fails: inode 2 of the sample table is the
    regular file a.txt, and a release of it is served without any answer to
    the request, whatever the scratch directory holds. *)
Theorem release_of_file_is_not_answered (w : world) :
  _fr_fuse_get_file_by_ino sample_table 2 = Some a_txt
  ∧ (serve g_canonicalize_filename fuse_dirent_size fuse_dirent
     scratch_file sample_table w (Release 2)).2 = [].
Proof.
  split; [reflexivity|].
  unfold serve, lowlevel_ops.
  rewrite (release_of_file_effects _ _ 2 a_txt) by reflexivity.
  by destruct (bool_decide _).
Qed.

(** C5, at an input where it fails: inode 3 of the sample table is a
    directory, and a lookup of "." under it is answered with the inode and the
    aggregate size of the root, not with inode 3. *)
Theorem lookup_dot_answers_root :
  _fr_fuse_get_file_by_ino sample_table 3 = Some dir_entry
  ∧ _fr_fuse_lookup g_canonicalize_filename sample_table 3 "."
    = [Reply (fuse_reply_entry
                (mkentry FUSE_ROOT_ID
                   (mkstat FUSE_ROOT_ID (Z.lor S_IFDIR mode_0755) 1
                      (_fr_fuse_get_size_by_ino g_canonicalize_filename
                         sample_table FUSE_ROOT_ID))))]
  ∧ FUSE_ROOT_ID ≠ 3.
Proof.
  split_and!; [reflexivity| |done].
  apply lookup_dot. unfold resolve_dir.
  rewrite bool_decide_eq_false_2 by done.
  by eexists.
Qed.

(** C6 fails as it is stated: inode 2 of the sample table is the regular
    file a.txt, and an open of it with the append flag on a read-only access
    mode is accepted. *)
Lemma open_accepts_append_on_read_only :
  _fr_fuse_get_file_by_ino sample_table 2 = Some a_txt
  ∧ _fr_fuse_open sample_table 2 (mkfi (Z.lor O_RDONLY O_APPEND) false)
    = [Reply (fuse_reply_open (mkfi (Z.lor O_RDONLY O_APPEND) true))].
Proof. split; reflexivity. Qed.

(** C6, amended: an open of the root is rejected with "is a directory"; of
    any other inode with an access mode other than read-only (write-only or
    read-write, whatever other flags are set), with the permission error; of
    any other inode with a read-only access mode, with "no such entry" when
    the inode is the reserved inode 0, past the end of the table or a hole,
    and with "is a directory" when it holds a directory; every remaining
    request, a read-only open of a live regular file, is accepted with direct
    reads asked for.  The append flag alone does not make an open rejected. *)
Theorem open_outcomes (t : InodeTable) (ino : nat) (fi : fuse_file_info) :
  (ino = FUSE_ROOT_ID →
   _fr_fuse_open t ino fi = [Reply (fuse_reply_err EISDIR)])
  ∧ (ino ≠ FUSE_ROOT_ID →
     Z.land (flags fi) O_ACCMODE ≠ O_RDONLY →
     _fr_fuse_open t ino fi = [Reply (fuse_reply_err EACCES)])
  ∧ (ino ≠ FUSE_ROOT_ID →
     Z.land (flags fi) O_ACCMODE = O_RDONLY →
     ino = 0 ∨ length (inodes t) ≤ ino ∨ inodes t !! ino = Some None →
     _fr_fuse_open t ino fi = [Reply (fuse_reply_err ENOENT)])
  ∧ (∀ fdata,
       FUSE_ROOT_ID < ino →
       Z.land (flags fi) O_ACCMODE = O_RDONLY →
       inodes t !! ino = Some (Some fdata) →
       _fr_fuse_open t ino fi
       = if fr_file_data_is_dir fdata
         then [Reply (fuse_reply_err EISDIR)]
         else [Reply (fuse_reply_open (mkfi (flags fi) true))])
  ∧ (∀ other,
       Z.land other O_ACCMODE = 0%Z →
       Z.land (Z.lor O_WRONLY other) O_ACCMODE ≠ O_RDONLY
       ∧ Z.land (Z.lor O_RDWR other) O_ACCMODE ≠ O_RDONLY
       ∧ Z.land (Z.lor O_RDONLY other) O_ACCMODE = O_RDONLY).
Proof.
  unfold _fr_fuse_open. split_and!.
  - intros ->. done.
  - intros Hroot Hacc.
    rewrite bool_decide_eq_false_2 by done.
    by rewrite bool_decide_eq_true_2.
  - intros Hroot Hacc Hcases.
    rewrite bool_decide_eq_false_2 by done.
    rewrite bool_decide_eq_false_2 by (intros H; by apply H).
    by rewrite get_file_by_ino_unresolved.
  - intros fdata Hino Hacc Hslot.
    rewrite bool_decide_eq_false_2 by lia.
    rewrite bool_decide_eq_false_2 by (intros H; by apply H).
    by rewrite (get_file_by_ino_live t ino fdata).
  - intros other Hother.
    rewrite !Z.land_lor_distr_l, Hother. by vm_compute.
Qed.

Lemma open_outcomes_witness :
  _fr_fuse_open sample_table 2 (mkfi (Z.lor O_WRONLY O_APPEND) false)
  = [Reply (fuse_reply_err EACCES)]
  ∧ _fr_fuse_open sample_table 7 (mkfi O_RDONLY false)
    = [Reply (fuse_reply_err ENOENT)].
Proof.
  split.
  - apply (open_outcomes sample_table 2
             (mkfi (Z.lor O_WRONLY O_APPEND) false)).
    + done.
    + vm_compute. discriminate.
  - apply (open_outcomes sample_table 7 (mkfi O_RDONLY false)).
    + done.
    + reflexivity.
    + right. left. vm_compute. lia.
Defined.

Lemma serve_open_world t w ino fi :
  (serve g_canonicalize_filename fuse_dirent_size fuse_dirent scratch_file
     t w (Open ino fi)).1 = w.
Proof.
  unfold serve, lowlevel_ops, _fr_fuse_open.
  destruct (bool_decide _); [done|]. destruct (bool_decide _); [done|].
  destruct (_fr_fuse_get_file_by_ino _ _) as [fdata|]; [|done].
  by destruct (fr_file_data_is_dir fdata).
Qed.

(** C8: a release of a live regular file asks for the deletion of one file
    at most, the scratch copy of the entry, and asks for it exactly when a
    file exists at the scratch path; it never answers with an error.  When
    the copy exists it is removed from the scratch directory and the error
    slot is left alone; when it does not, as after an open that no read
    followed (an open leaves the scratch directory as it was), the release
    deletes nothing and changes nothing. *)
Theorem release_deletes_scratch_copy_iff_present
  (t : InodeTable) (w : world) (ino : nat) (fdata : FrFileData) :
  _fr_fuse_get_file_by_ino t ino = Some fdata →
  fr_file_data_is_dir fdata = false →
  (∀ file,
     file ∈ deletions (_fr_fuse_release scratch_file t (work w) ino)
     ↔ file = scratch_file (FrFileData.original_path fdata)
       ∧ is_Some (work w !! file))
  ∧ (∀ e,
       Reply (fuse_reply_err e)
       ∉ _fr_fuse_release scratch_file t (work w) ino)
  ∧ (is_Some (work w !! scratch_file (FrFileData.original_path fdata)) →
     serve g_canonicalize_filename fuse_dirent_size fuse_dirent scratch_file
       t w (Release ino)
     = (mkworld (ff_error w)
          (delete (scratch_file (FrFileData.original_path fdata)) (work w))
          (members w),
        []))
  ∧ (work w !! scratch_file (FrFileData.original_path fdata) = None →
     ∀ fi,
       (serve g_canonicalize_filename fuse_dirent_size fuse_dirent
          scratch_file t w (Open ino fi)).1 = w
       ∧ serve g_canonicalize_filename fuse_dirent_size fuse_dirent
           scratch_file t w (Release ino)
         = (w, [])).
Proof.
  intros Hget Hdir.
  pose proof (release_of_file_effects t (work w) ino fdata Hget Hdir) as Hrel.
  split_and!.
  - intros file. rewrite Hrel. case_bool_decide as Hex; simpl.
    + rewrite list_elem_of_singleton. split; [by intros ->|by intros [-> _]].
    + split; [by intros ?%not_elem_of_nil|]. intros [-> Hsome]. done.
  - intros e. rewrite Hrel. case_bool_decide; simpl.
    + rewrite list_elem_of_singleton. discriminate.
    + apply not_elem_of_nil.
  - intros Hsome. unfold serve, lowlevel_ops. rewrite Hrel.
    by rewrite bool_decide_eq_true_2.
  - intros Hnone fi. split; [apply serve_open_world|].
    unfold serve, lowlevel_ops. rewrite Hrel.
    rewrite bool_decide_eq_false_2; [done|].
    rewrite Hnone. by intros [? ?].
Qed.



End HandlerProperties.

Lemma release_deletes_scratch_copy_iff_present_witness :
  serve sample_canonicalize sample_dirent_size sample_dirent
    sample_scratch_file sample_table (mkworld None ∅ ∅) (Release 2)
  = (mkworld None ∅ ∅, []).
Proof.
  apply (release_deletes_scratch_copy_iff_present sample_canonicalize
           sample_dirent_size sample_dirent sample_scratch_file
           sample_table (mkworld None ∅ ∅) 2 a_txt);
    [reflexivity|reflexivity|reflexivity|exact (mkfi O_RDONLY false)].
Defined.


(** ** The lifecycle *)

Lemma fr_fuse_mount_started h ff :
  started ff = true → fr_fuse_mount h ff = ff.
Proof. intros Hs. unfold fr_fuse_mount. by rewrite Hs. Qed.

(** What the initialiser leaves when it records no error. *)
Lemma fr_fuse_init_ok h :
  error (fr_fuse_init h) = None →
  fr_fuse_init h
  = mkFrFuse None None (Some ()) (Some initial_table)
      (Some (temp_mount_dir h)) (Some (temp_work_dir h)) (Some ()) true None.
Proof.
  unfold fr_fuse_init, fr_fuse_mount.
  destruct (fuse_session_new_ok h); simpl; [|discriminate].
  destruct (fuse_session_mount_ok h); simpl; [|discriminate].
  destruct (g_thread_try_new_ok h); simpl; [done|discriminate].
Qed.

(** C9: a bridge that [fr_fuse_new] returns is already mounted: it is
    started, its mount directory is handed out, its table is the one with the
    two reserved holes, the thread of the request loop exists and no error
    is recorded; a mount of it by the host changes nothing, whatever the host
    system would answer. *)
Theorem construction_mounts
  (h : host) (a : FrArchive) (pw : option string) (ff : FrFuse) :
  fr_fuse_new h a pw = Some ff →
  started ff = true
  ∧ fr_fuse_get_mount_dir ff = Some (temp_mount_dir h)
  ∧ table ff = Some initial_table
  ∧ inodes initial_table = [None; None]
  ∧ loop_thread ff = Some ()
  ∧ error ff = None
  ∧ archive ff = Some a
  ∧ ∀ h', fr_fuse_mount h' ff = ff.
Proof.
  unfold fr_fuse_new.
  destruct (error (fr_fuse_init h)) eqn:Herr; [discriminate|].
  rewrite (fr_fuse_init_ok h Herr). simpl. intros [= <-].
  repeat split.
Qed.

Lemma construction_mounts_witness :
  ∃ ff,
    fr_fuse_new (mkhost true true true "/tmp/work" "/tmp/mount")
      (archive_of_listing [a_txt]) None = Some ff
    ∧ started ff = true
    ∧ fr_fuse_mount (mkhost true false false "/tmp/w" "/tmp/m") ff = ff.
Proof.
  eexists. split; [reflexivity|].
  split;
    apply (construction_mounts (mkhost true true true "/tmp/work" "/tmp/mount")
             (archive_of_listing [a_txt]) None _ eq_refl).
Defined.

(** ** Reconciliation *)

Lemma delete_inode_live t i fdata :
  FUSE_ROOT_ID < i →
  inodes t !! i = Some (Some fdata) →
  inodes (_fr_fuse_delete_inode t i) !! i = Some None.
Proof.
  intros Hi Hslot. unfold _fr_fuse_delete_inode.
  apply lookup_lt_Some in Hslot as Hlen.
  destruct (Nat.leb_spec i FUSE_ROOT_ID); [lia|].
  destruct (Nat.leb_spec (length (inodes t)) i); [lia|]. simpl.
  rewrite Hslot. simpl. by apply list_lookup_insert_eq.
Qed.

Section Reconcile.

Variable a : FrArchive.

Lemma remove_step_lookup st i j :
  inodes (update_remove_step a st i).1 !! j = inodes st.1 !! j
  ∨ inodes (update_remove_step a st i).1 !! j = Some None.
Proof.
  unfold update_remove_step.
  destruct (inodes st.1 !! i) as [[fdata|]|] eqn:Hslot; [|by left..].
  case_bool_decide; [by left|]. simpl.
  destruct (decide (j = i)) as [->|Hne].
  - apply lookup_lt_Some in Hslot.
    destruct (delete_inode_slot st.1 i Hslot) as [H'|H']; [by right|].
    left. by rewrite H'.
  - left. by apply delete_inode_other.
Qed.

Lemma remove_step_done st i d :
  FUSE_ROOT_ID < i →
  inodes (update_remove_step a st i).1 !! i = Some (Some d) →
  is_Some (files_hash a !! FrFileData.original_path d).
Proof.
  intros Hi. unfold update_remove_step.
  destruct (inodes st.1 !! i) as [[fdata|]|] eqn:Hslot.
  - case_bool_decide as Hin.
    + rewrite Hslot. by intros [= <-].
    + simpl. rewrite (delete_inode_live _ _ fdata) by done. discriminate.
  - rewrite Hslot. discriminate.
  - rewrite Hslot. discriminate.
Qed.

Lemma remove_loop_lookup l st j :
  inodes (foldl (update_remove_step a) st l).1 !! j = inodes st.1 !! j
  ∨ inodes (foldl (update_remove_step a) st l).1 !! j = Some None.
Proof.
  revert st. induction l as [|k l IH]; intros st; simpl; [by left|].
  destruct (IH (update_remove_step a st k)) as [Heq|Hnone]; [|by right].
  rewrite Heq. apply remove_step_lookup.
Qed.

Lemma remove_loop_length l st :
  length (inodes (foldl (update_remove_step a) st l).1) = length (inodes st.1).
Proof.
  revert st. induction l as [|k l IH]; intros st; simpl; [done|].
  rewrite IH. unfold update_remove_step.
  destruct (inodes st.1 !! k) as [[fdata|]|]; try done.
  case_bool_decide; [done|]. simpl. apply length_delete_inode.
Qed.

(** After the first loop, every live slot it went over is a member of the
    archive. *)
Lemma remove_loop_done l st i d :
  Forall (λ k, FUSE_ROOT_ID < k) l →
  i ∈ l →
  inodes (foldl (update_remove_step a) st l).1 !! i = Some (Some d) →
  is_Some (files_hash a !! FrFileData.original_path d).
Proof.
  revert st. induction l as [|k l IH]; intros st Hall Hin Hslot.
  - by apply not_elem_of_nil in Hin.
  - apply Forall_cons in Hall as [Hk Hall]. simpl in Hslot.
    apply elem_of_cons in Hin as [->|Hin]; [|by eapply IH].
    destruct (remove_loop_lookup l (update_remove_step a st k) k)
      as [Heq|Hnone]; [|congruence].
    rewrite Heq in Hslot. by eapply remove_step_done.
Qed.

(** The first loop does nothing, and calls nothing, on a table whose live
    slots are all members of the archive. *)
Lemma remove_loop_stable l st :
  (∀ i d, i ∈ l → inodes st.1 !! i = Some (Some d) →
     is_Some (files_hash a !! FrFileData.original_path d)) →
  foldl (update_remove_step a) st l = st.
Proof.
  induction l as [|k l IH]; intros Hlive; simpl; [done|].
  assert (update_remove_step a st k = st) as ->.
  { unfold update_remove_step.
    destruct (inodes st.1 !! k) as [[fdata|]|] eqn:Hslot; try done.
    rewrite bool_decide_eq_true_2; [done|].
    eapply Hlive; [apply elem_of_cons; by left|done]. }
  apply IH. intros i d Hi. apply Hlive. apply elem_of_cons; by right.
Qed.

Lemma add_step_paths st fdata p :
  is_Some (paths st.1 !! p) →
  is_Some (paths (update_add_step st fdata).1 !! p).
Proof.
  intros Hp. unfold update_add_step. case_bool_decide; [done|]. simpl.
  unfold fr_file_data_copy.
  destruct (decide (FrFileData.full_path fdata = p)) as [<-|Hne].
  - by rewrite lookup_insert_eq.
  - by rewrite lookup_insert_ne.
Qed.

Lemma add_step_has st fdata :
  is_Some (paths (update_add_step st fdata).1 !! FrFileData.full_path fdata).
Proof.
  unfold update_add_step. case_bool_decide; [done|]. simpl.
  unfold fr_file_data_copy. by rewrite lookup_insert_eq.
Qed.

Lemma add_loop_paths l st p :
  is_Some (paths st.1 !! p) →
  is_Some (paths (foldl update_add_step st l).1 !! p).
Proof.
  revert st. induction l as [|f l IH]; intros st Hp; simpl; [done|].
  apply IH. by apply add_step_paths.
Qed.

(** After the second loop, every member of the archive is in the reverse
    map. *)
Lemma add_loop_has l st fdata :
  fdata ∈ l →
  is_Some (paths (foldl update_add_step st l).1 !! FrFileData.full_path fdata).
Proof.
  revert st. induction l as [|f l IH]; intros st Hin; simpl.
  - by apply not_elem_of_nil in Hin.
  - apply elem_of_cons in Hin as [->|Hin]; [|by apply IH].
    apply add_loop_paths, add_step_has.
Qed.

Lemma add_step_slots st fdata i d :
  inodes (update_add_step st fdata).1 !! i = Some (Some d) →
  inodes st.1 !! i = Some (Some d) ∨ d = fdata.
Proof.
  unfold update_add_step. case_bool_decide; [by left|]. simpl.
  unfold fr_file_data_copy. intros Hi.
  apply lookup_app_Some in Hi as [Hi|[_ Hi]]; [by left|]. right.
  destruct (i - length (inodes st.1)); simpl in Hi; [congruence|].
  by rewrite lookup_nil in Hi.
Qed.

Lemma add_loop_slots l st i d :
  inodes (foldl update_add_step st l).1 !! i = Some (Some d) →
  inodes st.1 !! i = Some (Some d) ∨ d ∈ l.
Proof.
  revert st. induction l as [|f l IH]; intros st Hi; simpl in *; [by left|].
  destruct (IH _ Hi) as [Hi'|Hin]; [|right; apply elem_of_cons; by right].
  destruct (add_step_slots _ _ _ _ Hi') as [Hi''| ->]; [by left|].
  right. apply elem_of_cons; by left.
Qed.

(** The second loop does nothing, and calls nothing, on a table whose reverse
    map has every member of the archive. *)
Lemma add_loop_stable l st :
  (∀ fdata, fdata ∈ l →
     is_Some (paths st.1 !! FrFileData.full_path fdata)) →
  foldl update_add_step st l = st.
Proof.
  induction l as [|f l IH]; intros Hhas; simpl; [done|].
  assert (update_add_step st f = st) as ->.
  { unfold update_add_step. rewrite bool_decide_eq_true_2; [done|].
    apply Hhas, elem_of_cons. by left. }
  apply IH. intros fdata Hin. apply Hhas. apply elem_of_cons; by right.
Qed.

(** A second pass of the two loops over the table the first pass left, with
    the same archive, makes no call and changes nothing. *)
Lemma update_inodes_loops_idempotent t :
  archive_indexed a →
  update_inodes_loops a (update_inodes_loops a t).1
  = ((update_inodes_loops a t).1, []).
Proof.
  intros Hindexed.
  set (t1 := (update_inodes_loops a t).1).
  unfold update_inodes_loops at 1.
  rewrite remove_loop_stable.
  - apply add_loop_stable. simpl. intros fdata Hin.
    subst t1. unfold update_inodes_loops. by apply add_loop_has.
  - simpl. intros i d Hi Hslot. subst t1. unfold update_inodes_loops in Hslot.
    apply elem_of_seq in Hi as [Hlo Hhi].
    apply add_loop_slots in Hslot as [Hslot|Hin]; [|by apply Hindexed].
    apply lookup_lt_Some in Hslot as Hlen.
    rewrite remove_loop_length in Hlen. simpl in Hlen.
    eapply remove_loop_done; [|
      |exact Hslot].
    + apply Forall_seq. intros k Hk. unfold FR_FUSE_INODE_START in Hk. lia.
    + apply elem_of_seq. lia.
Qed.

End Reconcile.

Lemma files_hash_insert_kept (l : list FrFileData)
  (h : gmap string FrFileData) (k : string) :
  is_Some (h !! k) →
  is_Some
    (foldl (λ h fdata, <[FrFileData.original_path fdata := fdata]> h) h l
       !! k).
Proof.
  revert h. induction l as [|g l IH]; intros h Hk; simpl; [done|].
  apply IH.
  destruct (decide (FrFileData.original_path g = k)) as [<-|Hne].
  - by rewrite lookup_insert_eq.
  - by rewrite lookup_insert_ne.
Qed.

Lemma archive_of_listing_indexed listing :
  archive_indexed (archive_of_listing listing).
Proof.
  unfold archive_indexed, archive_of_listing. simpl.
  generalize (∅ : gmap string FrFileData).
  induction listing as [|f l IH]; intros h fdata Hin.
  - by apply not_elem_of_nil in Hin.
  - simpl. apply elem_of_cons in Hin as [->|Hin]; [|by apply IH].
    apply files_hash_insert_kept. by rewrite lookup_insert_eq.
Qed.

(** C7: reconciliation is idempotent.  On a bridge with any table and any
    archive whose members are all in its hash of original paths, as they are
    for every listing, [fr_fuse_update_inodes] runs to the end, and a second
    run with the archive unchanged calls neither the deletion nor the
    creation of an inode and leaves the bridge, table and reverse map
    included, exactly as the first run left it. *)
Theorem reconcile_idempotent (ff : FrFuse) (a : FrArchive) (t : InodeTable) :
  archive ff = Some a →
  table ff = Some t →
  archive_indexed a →
  ∃ ff1 calls1,
    fr_fuse_update_inodes ff = Some (ff1, calls1)
    ∧ archive ff1 = Some a
    ∧ fr_fuse_update_inodes ff1 = Some (ff1, []).
Proof.
  intros Ha Ht Hindexed. unfold fr_fuse_update_inodes.
  destruct (started ff) eqn:Hs; simpl.
  - rewrite Ht, Ha.
    pose proof (update_inodes_loops_idempotent a t Hindexed) as Hidem.
    destruct (update_inodes_loops a t) as [t1 calls1]. simpl in Hidem.
    eexists _, calls1. split; [reflexivity|]. simpl.
    split; [done|]. by rewrite Hidem.
  - exists ff, []. by rewrite Hs.
Qed.

Lemma reconcile_idempotent_witness :
  ∃ ff1 calls1,
    fr_fuse_update_inodes
      (mkFrFuse (Some (archive_of_listing [a_txt; b_txt])) None (Some ())
         (Some sample_table) (Some "/tmp/mount") (Some "/tmp/work")
         (Some ()) true None)
    = Some (ff1, calls1)
    ∧ archive ff1 = Some (archive_of_listing [a_txt; b_txt])
    ∧ fr_fuse_update_inodes ff1 = Some (ff1, []).
Proof.
  apply (reconcile_idempotent
           (mkFrFuse (Some (archive_of_listing [a_txt; b_txt])) None (Some ())
              (Some sample_table) (Some "/tmp/mount") (Some "/tmp/work")
              (Some ()) true None)
           (archive_of_listing [a_txt; b_txt]) sample_table).
  - reflexivity.
  - reflexivity.
  - apply archive_of_listing_indexed.
Defined.

(** The first run of the example deletes the directory, which the listing
    no longer has, and creates nothing. *)
Example reconcile_sample_calls :
  snd <$> fr_fuse_update_inodes
            (mkFrFuse (Some (archive_of_listing [a_txt; b_txt])) None
               (Some ()) (Some sample_table) (Some "/tmp/mount")
               (Some "/tmp/work") (Some ()) true None)
  = Some [call_delete_inode 3].
Proof. vm_compute. reflexivity. Qed.

(** ** The bridge on the small archive *)

Example lookup_dir_in_root :
  _fr_fuse_lookup sample_canonicalize sample_table FUSE_ROOT_ID "dir"
  = [Reply (fuse_reply_entry
              (mkentry 3 (mkstat 3 (Z.lor S_IFDIR mode_0755) 1 3)))].
Proof. vm_compute. reflexivity. Qed.

Example lookup_file_in_dir :
  _fr_fuse_lookup sample_canonicalize sample_table 3 "b.txt"
  = [Reply (fuse_reply_entry
              (mkentry 4 (mkstat 4 (Z.lor S_IFREG mode_0644) 1 3)))].
Proof. vm_compute. reflexivity. Qed.

Example lookup_missing_name :
  _fr_fuse_lookup sample_canonicalize sample_table FUSE_ROOT_ID "b.txt"
  = [Reply (fuse_reply_err ENOENT)].
Proof. vm_compute. reflexivity. Qed.

Example getattr_root_sums_top_level :
  _fr_fuse_getattr sample_canonicalize sample_table FUSE_ROOT_ID
  = [Reply (fuse_reply_attr
              (mkstat FUSE_ROOT_ID (Z.lor S_IFDIR mode_0755) 1 8))].
Proof. vm_compute. reflexivity. Qed.

(** A read of a.txt for 10 bytes at offset 0 extracts it and answers with
    its five bytes; a release then removes the scratch copy without an
    answer. *)
Example read_then_release :
  serve sample_canonicalize sample_dirent_size sample_dirent
    sample_scratch_file sample_table sample_world (Read 2 10 0)
  = (mkworld None {["/tmp/work/a.txt" := hello]} {["a.txt" := hello]},
     [fuse_reply_buf hello])
  ∧ serve sample_canonicalize sample_dirent_size sample_dirent
      sample_scratch_file sample_table
      (mkworld None {["/tmp/work/a.txt" := hello]} {["a.txt" := hello]})
      (Release 2)
    = (sample_world, []).
Proof. split; vm_compute; reflexivity. Qed.

(** * Further properties of the code *)

(** ** Looking inodes up after the table changes *)

Lemma reserved_slots_kept t op :
  inodes t !! 0 = Some None →
  inodes t !! FUSE_ROOT_ID = Some None →
  inodes (apply_op t op) !! 0 = Some None
  ∧ inodes (apply_op t op) !! FUSE_ROOT_ID = Some None.
Proof.
  intros H0 H1. destruct op as [src|ino]; simpl.
  - rewrite inodes_create_inode. split; by apply lookup_app_l_Some.
  - unfold _fr_fuse_delete_inode.
    destruct (Nat.leb_spec ino FUSE_ROOT_ID); [done|].
    destruct (_ <=? _); simpl; [done|].
    destruct (inodes t !! ino) as [[fdata|]|]; simpl; [|done..].
    unfold FUSE_ROOT_ID in *. rewrite !list_lookup_insert_ne by lia. done.
Qed.

(** X1: whatever Create and Delete operations follow a mount, the slots 0
    and [FUSE_ROOT_ID] stay holes and no entry is ever given one of these two
    numbers: every inode number handed out is at least
    [FR_FUSE_INODE_START]. *)
Theorem reserved_inodes_stay_reserved (ops : list table_op) :
  inodes (apply_ops initial_table ops) !! 0 = Some None
  ∧ inodes (apply_ops initial_table ops) !! FUSE_ROOT_ID = Some None
  ∧ Forall (λ n, FR_FUSE_INODE_START ≤ n) (created_inos initial_table ops).
Proof.
  split_and!.
  - cut (inodes (apply_ops initial_table ops) !! 0 = Some None
         ∧ inodes (apply_ops initial_table ops) !! FUSE_ROOT_ID = Some None);
      [by intros [? ?]|].
    unfold apply_ops. generalize initial_table (eq_refl : inodes initial_table !! 0 = Some None)
      (eq_refl : inodes initial_table !! FUSE_ROOT_ID = Some None).
    induction ops as [|op ops IH]; intros t H0 H1; simpl; [done|].
    destruct (reserved_slots_kept t op H0 H1). by apply IH.
  - cut (inodes (apply_ops initial_table ops) !! 0 = Some None
         ∧ inodes (apply_ops initial_table ops) !! FUSE_ROOT_ID = Some None);
      [by intros [? ?]|].
    unfold apply_ops. generalize initial_table (eq_refl : inodes initial_table !! 0 = Some None)
      (eq_refl : inodes initial_table !! FUSE_ROOT_ID = Some None).
    induction ops as [|op ops IH]; intros t H0 H1; simpl; [done|].
    destruct (reserved_slots_kept t op H0 H1). by apply IH.
  - apply (created_inos_ge initial_table ops).
Qed.

(** X2: on a table that has its two reserved slots, the inode a Create
    assigns resolves to the descriptor just stored (to nothing for a hole),
    and every other inode resolves as it did before. *)
Theorem get_file_after_create
  (t : InodeTable) (src : option FrFileData) (ino : nat) :
  FR_FUSE_INODE_START ≤ length (inodes t) →
  _fr_fuse_get_file_by_ino (_fr_fuse_create_inode t src) (created_ino t) = src
  ∧ (ino ≠ created_ino t →
     _fr_fuse_get_file_by_ino (_fr_fuse_create_inode t src) ino
     = _fr_fuse_get_file_by_ino t ino).
Proof.
  intros Hlen. unfold _fr_fuse_get_file_by_ino, created_ino.
  rewrite length_create_inode, inodes_create_inode.
  unfold FR_FUSE_INODE_START, FUSE_ROOT_ID in *. split.
  - destruct (Nat.leb_spec (length (inodes t)) 1); [lia|].
    destruct (Nat.leb_spec (S (length (inodes t))) (length (inodes t)));
      [lia|]. simpl.
    rewrite lookup_app_r by lia. by rewrite Nat.sub_diag.
  - intros Hne. destruct (Nat.leb_spec ino 1); [done|]. cbn [orb].
    destruct (Nat.leb_spec (S (length (inodes t))) ino),
      (Nat.leb_spec (length (inodes t)) ino); try done; try lia.
    by rewrite lookup_app_l by lia.
Qed.

Lemma get_file_after_create_witness :
  _fr_fuse_get_file_by_ino
    (_fr_fuse_create_inode initial_table (Some a_txt))
    (created_ino initial_table)
  = Some a_txt.
Proof.
  apply (get_file_after_create initial_table (Some a_txt) 0).
  simpl. unfold FR_FUSE_INODE_START, FUSE_ROOT_ID. lia.
Defined.

Lemma delete_inode_noop t i :
  (∀ d, inodes t !! i ≠ Some (Some d)) → _fr_fuse_delete_inode t i = t.
Proof.
  intros Hdead. unfold _fr_fuse_delete_inode.
  destruct (_ || _); [done|].
  destruct (inodes t !! i) as [[fdata|]|] eqn:Hslot; [|done..].
  by destruct (Hdead fdata).
Qed.

(** X3: after a Delete the deleted inode resolves to nothing and its full
    path is gone from the reverse map, every other inode resolves as it did
    before, and deleting it again changes nothing. *)
Theorem get_file_after_delete (t : InodeTable) (i ino : nat) :
  _fr_fuse_get_file_by_ino (_fr_fuse_delete_inode t i) i = None
  ∧ (∀ d, _fr_fuse_get_file_by_ino t i = Some d →
       paths (_fr_fuse_delete_inode t i) !! FrFileData.full_path d = None)
  ∧ (ino ≠ i →
     _fr_fuse_get_file_by_ino (_fr_fuse_delete_inode t i) ino
     = _fr_fuse_get_file_by_ino t ino)
  ∧ _fr_fuse_delete_inode (_fr_fuse_delete_inode t i) i
    = _fr_fuse_delete_inode t i.
Proof.
  split_and!.
  - unfold _fr_fuse_get_file_by_ino. rewrite length_delete_inode.
    destruct (Nat.leb_spec i FUSE_ROOT_ID); [done|].
    destruct (Nat.leb_spec (length (inodes t)) i) as [|Hlt]; [done|]. simpl.
    destruct (inodes t !! i) as [[fdata|]|] eqn:Hslot.
    + by rewrite (delete_inode_live t i fdata).
    + rewrite delete_inode_noop by (intros d; congruence). by rewrite Hslot.
    + apply lookup_ge_None in Hslot. lia.
  - intros d Hget.
    unfold _fr_fuse_get_file_by_ino, _fr_fuse_delete_inode in *.
    destruct (_ || _); [done|].
    destruct (inodes t !! i) as [[fdata|]|]; simpl in *; try done.
    injection Hget as ->. by rewrite lookup_delete_eq.
  - intros Hne. unfold _fr_fuse_get_file_by_ino.
    rewrite length_delete_inode. by rewrite delete_inode_other.
  - unfold _fr_fuse_delete_inode at 1. rewrite length_delete_inode.
    destruct (Nat.leb_spec i FUSE_ROOT_ID); [done|].
    destruct (Nat.leb_spec (length (inodes t)) i); [done|]. simpl.
    destruct (inodes t !! i) as [[fdata|]|] eqn:Hslot.
    + by rewrite (delete_inode_live t i fdata).
    + rewrite delete_inode_noop by (intros d; congruence). by rewrite Hslot.
    + apply lookup_ge_None in Hslot. lia.
Qed.

Lemma delete_inode_unresolved t i :
  _fr_fuse_get_file_by_ino t i = None → _fr_fuse_delete_inode t i = t.
Proof.
  unfold _fr_fuse_get_file_by_ino, _fr_fuse_delete_inode.
  destruct (_ || _); [done|].
  by destruct (inodes t !! i) as [[fdata|]|].
Qed.

Lemma delete_inode_resolved t i d :
  _fr_fuse_get_file_by_ino t i = Some d →
  _fr_fuse_delete_inode t i
  = mkInodeTable (<[i:=None]> (inodes t))
      (delete (FrFileData.full_path d) (paths t)).
Proof.
  unfold _fr_fuse_get_file_by_ino, _fr_fuse_delete_inode.
  destruct (_ || _); [done|].
  destruct (inodes t !! i) as [[fdata|]|]; simpl; try done.
  by intros [= ->].
Qed.

Lemma get_file_by_ino_delete_other t i ino :
  ino ≠ i →
  _fr_fuse_get_file_by_ino (_fr_fuse_delete_inode t i) ino
  = _fr_fuse_get_file_by_ino t ino.
Proof.
  intros Hne. unfold _fr_fuse_get_file_by_ino.
  rewrite length_delete_inode. by rewrite delete_inode_other.
Qed.

(** X4: two deletions give the same table and the same reverse map in
    either order. *)
Theorem delete_inode_commute (t : InodeTable) (i j : nat) :
  _fr_fuse_delete_inode (_fr_fuse_delete_inode t i) j
  = _fr_fuse_delete_inode (_fr_fuse_delete_inode t j) i.
Proof.
  destruct (decide (i = j)) as [->|Hne]; [done|].
  pose proof (get_file_by_ino_delete_other t i j (not_eq_sym Hne)) as Hj.
  pose proof (get_file_by_ino_delete_other t j i Hne) as Hi.
  destruct (_fr_fuse_get_file_by_ino t i) as [di|] eqn:Hgi.
  - destruct (_fr_fuse_get_file_by_ino t j) as [dj|] eqn:Hgj.
    + rewrite (delete_inode_resolved _ j dj Hj).
      rewrite (delete_inode_resolved _ i di Hi).
      rewrite (delete_inode_resolved t i di Hgi).
      rewrite (delete_inode_resolved t j dj Hgj). simpl.
      f_equal; [by apply list_insert_insert_ne|apply delete_delete].
    + rewrite (delete_inode_unresolved _ j Hj).
      by rewrite (delete_inode_unresolved t j Hgj).
  - rewrite (delete_inode_unresolved t i Hgi) in *.
    by rewrite (delete_inode_unresolved _ i Hi).
Qed.

(** ** The entries the handlers scan *)

Lemma elem_of_entries_from k slots i d :
  (i, d) ∈ entries_from k slots
  ↔ ∃ n, i = k + n ∧ slots !! n = Some (Some d).
Proof.
  revert k. induction slots as [|[x|] rest IH]; intros k; simpl.
  - split; [by intros ?%not_elem_of_nil|]. by intros (n & _ & ?).
  - rewrite elem_of_cons, IH. split.
    + intros [[= -> ->]|(n & -> & Hn)].
      * exists 0. split; [lia|done].
      * exists (S n). split; [lia|done].
    + intros ([|n] & -> & Hn); simpl in Hn.
      * left. rewrite Nat.add_0_r. congruence.
      * right. exists n. split; [lia|done].
  - rewrite IH. split.
    + intros (n & -> & Hn). exists (S n). split; [lia|done].
    + intros ([|n] & -> & Hn); simpl in Hn; [done|].
      exists n. split; [lia|done].
Qed.

Lemma elem_of_live_entries t i d :
  (i, d) ∈ live_entries t
  ↔ FUSE_ROOT_ID < i ∧ inodes t !! i = Some (Some d).
Proof.
  unfold live_entries. rewrite elem_of_entries_from.
  unfold FR_FUSE_INODE_START, FUSE_ROOT_ID. split.
  - intros (n & -> & Hn). rewrite lookup_drop in Hn. split; [lia|done].
  - intros [Hi Hslot]. exists (i - 2). split; [lia|].
    rewrite lookup_drop. by replace (1 + 1 + (i - 2)) with i by lia.
Qed.

Section ScanProperties.

Variable g_canonicalize_filename : string → string → string.
Variable fuse_dirent_size : string → nat.
Variable fuse_dirent : string → nat → nat → list Byte.byte.
Variable scratch_file : string → string.

Lemma elem_of_dir_children t dir_path i d :
  (i, d) ∈ dir_children g_canonicalize_filename t dir_path
  ↔ FUSE_ROOT_ID < i
    ∧ inodes t !! i = Some (Some d)
    ∧ g_canonicalize_filename (FrFileData.path d) "/" = dir_path.
Proof.
  unfold dir_children. rewrite list_elem_of_filter, elem_of_live_entries.
  simpl. split; [by intros (? & ? & ?)|by intros (? & ? & ?)].
Qed.

(** The size of a live inode other than the root is the size of its
    descriptor. *)
Lemma get_size_by_ino_live t i d :
  FUSE_ROOT_ID < i →
  inodes t !! i = Some (Some d) →
  _fr_fuse_get_size_by_ino g_canonicalize_filename t i = entry_size d.
Proof.
  intros Hi Hslot. unfold _fr_fuse_get_size_by_ino.
  rewrite bool_decide_eq_true_2 by lia.
  by rewrite (get_file_by_ino_live t i d).
Qed.



(** What the scan of a lookup finds: the first entry, in table order, under
    the path and with the name looked up. *)
Lemma lookup_scan_spec t path name k slots :
  (∀ i d, (i, d) ∈ entries_from k slots →
     _fr_fuse_get_size_by_ino g_canonicalize_filename t i = entry_size d) →
  lookup_scan g_canonicalize_filename t path name k slots
  = (λ e, mkentry e.1
            (mkstat e.1 (file_mode (fr_file_data_is_dir e.2)) 1
               (entry_size e.2)))
      <$> head (filter (λ e, FrFileData.name e.2 = name)
                  (filter
                     (λ e, g_canonicalize_filename (FrFileData.path e.2) "/"
                           = path)
                     (entries_from k slots))).
Proof.
  revert k. induction slots as [|[x|] rest IH]; intros k Hsize; simpl.
  - done.
  - rewrite filter_cons. simpl.
    destruct (decide (g_canonicalize_filename (FrFileData.path x) "/" = path))
      as [Hp|Hp].
    + rewrite (bool_decide_eq_true_2 _ Hp). rewrite filter_cons. simpl.
      destruct (decide (FrFileData.name x = name)) as [Hn|Hn].
      * rewrite (bool_decide_eq_true_2 _ Hn). simpl.
        rewrite (Hsize k x); [done|]. simpl. apply elem_of_cons. by left.
      * rewrite (bool_decide_eq_false_2 _ Hn). simpl. apply IH.
        intros i d Hin. apply Hsize. simpl. apply elem_of_cons. by right.
    + rewrite (bool_decide_eq_false_2 _ Hp). simpl. apply IH.
      intros i d Hin. apply Hsize. simpl. apply elem_of_cons. by right.
  - apply IH. intros i d Hin. by apply Hsize.
Qed.

Lemma lookup_spec t parent name path :
  resolve_dir g_canonicalize_filename t parent = Some path →
  name ≠ "." →
  _fr_fuse_lookup g_canonicalize_filename t parent name
  = match head (filter (λ e, FrFileData.name e.2 = name)
                  (dir_children g_canonicalize_filename t path)) with
    | Some e =>
        [Reply (fuse_reply_entry
                  (mkentry e.1
                     (mkstat e.1 (file_mode (fr_file_data_is_dir e.2)) 1
                        (entry_size e.2))))]
    | None => [Reply (fuse_reply_err ENOENT)]
    end.
Proof.
  intros Hpath Hname. unfold _fr_fuse_lookup. rewrite Hpath.
  rewrite bool_decide_eq_false_2 by done.
  rewrite lookup_scan_spec.
  - unfold dir_children, live_entries. by destruct (head _).
  - intros i d Hin. apply elem_of_live_entries in Hin as [Hi Hslot].
    by apply get_size_by_ino_live.
Qed.

(** X6: a lookup of a name other than "." under a parent that resolves is
    answered from the entries a listing of that parent goes over, the live
    entries whose canonical parent path is the parent's path: with the
    first of them, in table order, that has the name, given its inode, the
    mode of its kind and its size; with "no such entry" when none has. *)
Theorem lookup_answers_first_listed
  (t : InodeTable) (parent : nat) (name path : string) :
  resolve_dir g_canonicalize_filename t parent = Some path →
  name ≠ "." →
  _fr_fuse_lookup g_canonicalize_filename t parent name
  = match head (filter (λ e, FrFileData.name e.2 = name)
                  (dir_children g_canonicalize_filename t path)) with
    | Some e =>
        [Reply (fuse_reply_entry
                  (mkentry e.1
                     (mkstat e.1 (file_mode (fr_file_data_is_dir e.2)) 1
                        (entry_size e.2))))]
    | None => [Reply (fuse_reply_err ENOENT)]
    end.
Proof. apply lookup_spec. Qed.

(** X7: under a parent that resolves and for a name other than ".", the
    inode a successful lookup answers with is a live slot past the root that
    has the name looked up and the parent's path as canonical parent path,
    and the attributes answered are those of its descriptor; the lookup is
    answered with "no such entry" exactly when no live slot past the root has
    that name under that path. *)
Theorem lookup_sound_and_complete
  (t : InodeTable) (parent : nat) (name path : string) :
  resolve_dir g_canonicalize_filename t parent = Some path →
  name ≠ "." →
  (∀ e,
     _fr_fuse_lookup g_canonicalize_filename t parent name
     = [Reply (fuse_reply_entry e)] →
     ∃ d,
       FUSE_ROOT_ID < e_ino e
       ∧ inodes t !! e_ino e = Some (Some d)
       ∧ FrFileData.name d = name
       ∧ g_canonicalize_filename (FrFileData.path d) "/" = path
       ∧ e_attr e
         = mkstat (e_ino e) (file_mode (fr_file_data_is_dir d)) 1
             (entry_size d))
  ∧ (_fr_fuse_lookup g_canonicalize_filename t parent name
     = [Reply (fuse_reply_err ENOENT)]
     ↔ ∀ i d,
         FUSE_ROOT_ID < i →
         inodes t !! i = Some (Some d) →
         g_canonicalize_filename (FrFileData.path d) "/" = path →
         FrFileData.name d ≠ name).
Proof.
  intros Hpath Hname. rewrite (lookup_spec t parent name path Hpath Hname).
  destruct (head _) as [[i d]|] eqn:Hhead.
  - apply head_Some_elem_of in Hhead.
    apply list_elem_of_filter in Hhead as [Hn Hin]. simpl in Hn.
    apply elem_of_dir_children in Hin as (Hi & Hslot & Hp).
    split.
    + intros e [= <-]. exists d. simpl. by split_and!.
    + split; [discriminate|]. intros Hnone. by destruct (Hnone i d).
  - split; [discriminate|]. split; [|done].
    intros _ i d Hi Hslot Hp Hn.
    apply head_None in Hhead.
    eapply (filter_nil_not_elem_of _ _ (i, d)); [exact Hhead|exact Hn|].
    by apply elem_of_dir_children.
Qed.

(** X8: the attributes in the answer to a successful lookup, of "." or of
    any other name, are the attributes GetAttributes answers with for the
    inode of that answer. *)
Theorem lookup_attr_is_getattr
  (t : InodeTable) (parent : nat) (name : string) (e : fuse_entry_param) :
  _fr_fuse_lookup g_canonicalize_filename t parent name
  = [Reply (fuse_reply_entry e)] →
  _fr_fuse_getattr g_canonicalize_filename t (e_ino e)
  = [Reply (fuse_reply_attr (e_attr e))].
Proof.
  intros Hlookup.
  destruct (resolve_dir g_canonicalize_filename t parent) as [path|] eqn:Hpath;
    [|by unfold _fr_fuse_lookup in Hlookup; rewrite Hpath in Hlookup].
  destruct (decide (name = ".")) as [->|Hname].
  - rewrite lookup_dot in Hlookup by (by eexists).
    injection Hlookup as <-. reflexivity.
  - rewrite (lookup_spec t parent name path Hpath Hname) in Hlookup.
    destruct (head _) as [[i d]|] eqn:Hhead; [|discriminate].
    injection Hlookup as <-. cbn [e_ino e_attr fst snd].
    apply head_Some_elem_of in Hhead.
    apply list_elem_of_filter in Hhead as [_ Hin].
    apply elem_of_dir_children in Hin as (Hi & Hslot & _).
    unfold _fr_fuse_getattr.
    rewrite bool_decide_eq_false_2 by (intros ->; lia).
    rewrite (get_file_by_ino_live t i d Hi Hslot).
    by rewrite (get_size_by_ino_live t i d Hi Hslot).
Qed.

Lemma readdir_scan_spec dir_path k slots b :
  readdir_scan g_canonicalize_filename fuse_dirent_size fuse_dirent
    dir_path k slots b
  = foldl (λ b e,
             _fr_fuse_dirbuf_add fuse_dirent_size fuse_dirent b
               (FrFileData.name e.2) e.1)
      b
      (filter (λ e, g_canonicalize_filename (FrFileData.path e.2) "/"
                    = dir_path)
         (entries_from k slots)).
Proof.
  revert k b. induction slots as [|[x|] rest IH]; intros k b; simpl.
  - done.
  - rewrite filter_cons. cbn [snd].
    destruct (decide (g_canonicalize_filename (FrFileData.path x) "/"
                      = dir_path)) as [Hp|Hp].
    + rewrite (bool_decide_eq_true_2 _ Hp). apply IH.
    + rewrite (bool_decide_eq_false_2 _ Hp). apply IH.
  - apply IH.
Qed.

Lemma length_dirbuf b (l : list (nat * FrFileData)) :
  length (foldl (λ b e,
                   _fr_fuse_dirbuf_add fuse_dirent_size fuse_dirent b
                     (FrFileData.name e.2) e.1) b l)
  = length b + sum_list ((λ e, fuse_dirent_size (FrFileData.name e.2)) <$> l).
Proof.
  revert b. induction l as [|e l IH]; intros b.
  - rewrite fmap_nil. simpl. lia.
  - rewrite fmap_cons. cbn [foldl sum_list sum_list_with].
    rewrite IH. unfold _fr_fuse_dirbuf_add.
    rewrite length_app, length_resize. unfold id. lia.
Qed.

(** X9: a listing of a directory that resolves is answered with a slice of
    the buffer made of one entry, with its name and inode, for each live
    entry whose canonical parent path is the directory's path, in table
    order and for nothing else; the buffer is as long as the sizes of these
    entries add up to. *)
Theorem readdir_lists_children
  (t : InodeTable) (ino : nat) (size off : Z) (dir_path : string) :
  resolve_dir g_canonicalize_filename t ino = Some dir_path →
  _fr_fuse_readdir g_canonicalize_filename fuse_dirent_size fuse_dirent
    t ino size off
  = [Reply
       (_fr_fuse_reply_buf_limited
          (foldl (λ b e,
                    _fr_fuse_dirbuf_add fuse_dirent_size fuse_dirent b
                      (FrFileData.name e.2) e.1)
             [] (dir_children g_canonicalize_filename t dir_path))
          (Z.of_nat
             (sum_list
                ((λ e, fuse_dirent_size (FrFileData.name e.2))
                   <$> dir_children g_canonicalize_filename t dir_path)))
          off size)].
Proof.
  intros Hpath. unfold _fr_fuse_readdir. rewrite Hpath.
  rewrite readdir_scan_spec. rewrite length_dirbuf. simpl.
  reflexivity.
Qed.

(** X10: a request is answered exactly once, at once or when its extraction
    and load have completed, unless it is the release of a live regular
    file, which is never answered. *)
Theorem request_answered_once_iff
  (t : InodeTable) (w : world) (r : request) :
  length
    (serve g_canonicalize_filename fuse_dirent_size fuse_dirent scratch_file
       t w r).2 = 1
  ↔ ¬ ∃ ino fdata,
        r = Release ino
        ∧ _fr_fuse_get_file_by_ino t ino = Some fdata
        ∧ fr_file_data_is_dir fdata = false.
Proof.
  split.
  - intros Hone (ino & fdata & -> & Hget & Hdir).
    unfold serve, lowlevel_ops in Hone.
    rewrite (release_of_file_effects scratch_file t (work w) ino fdata Hget
               Hdir) in Hone.
    by destruct (bool_decide _).
  - intros Hnot. apply serve_answers_once.
    intros ino fdata -> Hget.
    destruct (fr_file_data_is_dir fdata) eqn:Hdir; [done|].
    destruct Hnot. by exists ino, fdata.
Qed.

End ScanProperties.

Lemma lookup_answers_first_listed_witness :
  _fr_fuse_lookup sample_canonicalize sample_table 3 "b.txt"
  = [Reply (fuse_reply_entry
              (mkentry 4 (mkstat 4 (Z.lor S_IFREG mode_0644) 1 3)))].
Proof.
  rewrite (lookup_answers_first_listed sample_canonicalize sample_table 3
             "b.txt" "/dir"); [reflexivity|reflexivity|discriminate].
Defined.

Lemma lookup_sound_and_complete_witness :
  _fr_fuse_lookup sample_canonicalize sample_table FUSE_ROOT_ID "b.txt"
  = [Reply (fuse_reply_err ENOENT)]
  ↔ ∀ i d,
      FUSE_ROOT_ID < i →
      inodes sample_table !! i = Some (Some d) →
      sample_canonicalize (FrFileData.path d) "/" = "/" →
      FrFileData.name d ≠ "b.txt".
Proof.
  apply (lookup_sound_and_complete sample_canonicalize sample_table
           FUSE_ROOT_ID "b.txt" "/"); [reflexivity|discriminate].
Defined.

Lemma lookup_attr_is_getattr_witness :
  _fr_fuse_getattr sample_canonicalize sample_table 3
  = [Reply (fuse_reply_attr (mkstat 3 (Z.lor S_IFDIR mode_0755) 1 3))].
Proof.
  apply (lookup_attr_is_getattr sample_canonicalize sample_table
           FUSE_ROOT_ID "dir"
           (mkentry 3 (mkstat 3 (Z.lor S_IFDIR mode_0755) 1 3))).
  vm_compute. reflexivity.
Defined.

Lemma readdir_lists_children_witness :
  _fr_fuse_readdir sample_canonicalize sample_dirent_size sample_dirent
    sample_table 3 4096 0
  = [Reply (fuse_reply_buf
              (replicate 24 Byte.x00
               ++ String.list_byte_of_string "b.txt"))].
Proof.
  rewrite (readdir_lists_children sample_canonicalize sample_dirent_size
             sample_dirent sample_table 3 4096 0 "/dir"); [|reflexivity].
  vm_compute. reflexivity.
Defined.

(** ** Reading in pieces *)

Lemma reply_buf_limited_slice buf off size :
  (0 ≤ off < 2 ^ 63)%Z →
  (0 ≤ size)%Z →
  (Z.of_nat (length buf) < 2 ^ 64)%Z →
  _fr_fuse_reply_buf_limited buf (Z.of_nat (length buf)) off size
  = fuse_reply_buf (take (Z.to_nat size) (drop (Z.to_nat off) buf)).
Proof.
  intros Hoff Hsize Hlen. unfold _fr_fuse_reply_buf_limited.
  rewrite size_t_of_off_t_nonneg by done.
  destruct (Z.ltb_spec off (Z.of_nat (length buf))) as [Hlt|Hge].
  - rewrite Z.mod_small by lia. f_equal.
    rewrite <- (take_min_length _ (Z.to_nat size)).
    rewrite length_drop. f_equal. lia.
  - f_equal. rewrite drop_ge by lia. by rewrite take_nil.
Qed.

(** X11: two replies for adjacent ranges of one buffer, the second starting
    where the first ends, carry together the bytes of the single reply for
    the whole range: a file or a listing read in pieces reads the same as in
    one piece. *)
Theorem reply_buf_limited_adjacent
  (buf : list Byte.byte) (off size1 size2 : Z) :
  (0 ≤ off)%Z →
  (0 ≤ size1)%Z →
  (0 ≤ size2)%Z →
  (off + size1 < 2 ^ 63)%Z →
  (size1 + size2 < 2 ^ 64)%Z →
  (Z.of_nat (length buf) < 2 ^ 64)%Z →
  ∃ bytes1 bytes2,
    _fr_fuse_reply_buf_limited buf (Z.of_nat (length buf)) off size1
    = fuse_reply_buf bytes1
    ∧ _fr_fuse_reply_buf_limited buf (Z.of_nat (length buf)) (off + size1)
        size2
      = fuse_reply_buf bytes2
    ∧ _fr_fuse_reply_buf_limited buf (Z.of_nat (length buf)) off
        (size1 + size2)
      = fuse_reply_buf (bytes1 ++ bytes2).
Proof.
  intros Hoff H1 H2 Hend Hsum Hlen.
  eexists _, _. split_and!.
  - apply reply_buf_limited_slice; lia.
  - apply reply_buf_limited_slice; lia.
  - rewrite reply_buf_limited_slice by lia. f_equal.
    rewrite !Z2Nat.inj_add by lia.
    rewrite <- take_take_drop. by rewrite drop_drop.
Qed.

Lemma reply_buf_limited_adjacent_witness :
  ∃ bytes1 bytes2,
    _fr_fuse_reply_buf_limited hello (Z.of_nat (length hello)) 1 2
    = fuse_reply_buf bytes1
    ∧ _fr_fuse_reply_buf_limited hello (Z.of_nat (length hello)) (1 + 2) 9
      = fuse_reply_buf bytes2
    ∧ _fr_fuse_reply_buf_limited hello (Z.of_nat (length hello)) 1 (2 + 9)
      = fuse_reply_buf (bytes1 ++ bytes2).
Proof.
  apply (reply_buf_limited_adjacent hello 1 2 9); simpl; lia.
Defined.

(** ** What a reconciliation leaves *)

Section ReconcileProperties.

Variable a : FrArchive.

Lemma add_step_prefix st fdata i x :
  inodes st.1 !! i = Some x →
  inodes (update_add_step st fdata).1 !! i = Some x.
Proof.
  intros Hi. unfold update_add_step. case_bool_decide; [done|]. simpl.
  by apply lookup_app_l_Some.
Qed.

Lemma add_loop_prefix l st i x :
  inodes st.1 !! i = Some x →
  inodes (foldl update_add_step st l).1 !! i = Some x.
Proof.
  revert st. induction l as [|f l IH]; intros st Hi; simpl; [done|].
  by apply IH, add_step_prefix.
Qed.

Lemma remove_step_kept st k i d :
  inodes st.1 !! i = Some (Some d) →
  is_Some (files_hash a !! FrFileData.original_path d) →
  inodes (update_remove_step a st k).1 !! i = Some (Some d).
Proof.
  intros Hslot Hin. unfold update_remove_step.
  destruct (inodes st.1 !! k) as [[fdata|]|] eqn:Hk; try done.
  case_bool_decide as Hhash; [done|]. simpl.
  rewrite delete_inode_other; [done|].
  intros ->. rewrite Hslot in Hk. injection Hk as ->. done.
Qed.

Lemma remove_loop_kept l st i d :
  inodes st.1 !! i = Some (Some d) →
  is_Some (files_hash a !! FrFileData.original_path d) →
  inodes (foldl (update_remove_step a) st l).1 !! i = Some (Some d).
Proof.
  revert st. induction l as [|k l IH]; intros st Hslot Hin; simpl; [done|].
  apply IH; [|done]. by apply remove_step_kept.
Qed.

Lemma remove_loop_hole l st i :
  inodes st.1 !! i = Some None →
  inodes (foldl (update_remove_step a) st l).1 !! i = Some None.
Proof.
  intros Hslot.
  destruct (remove_loop_lookup a l st i) as [Heq|Hnone]; [|done].
  by rewrite Heq.
Qed.

Lemma inode_start_seq n :
  Forall (λ k, FUSE_ROOT_ID < k) (seq FR_FUSE_INODE_START n).
Proof.
  apply Forall_seq. intros k Hk.
  unfold FR_FUSE_INODE_START in Hk. lia.
Qed.

Lemma elem_of_inode_seq t i x :
  FUSE_ROOT_ID < i →
  inodes t !! i = Some x →
  i ∈ seq FR_FUSE_INODE_START (length (inodes t) - FR_FUSE_INODE_START).
Proof.
  intros Hi Hslot. apply lookup_lt_Some in Hslot.
  apply elem_of_seq. unfold FR_FUSE_INODE_START. lia.
Qed.

(** X12: after a reconciliation with an archive whose members are all keyed
    in its hash, every live slot past the root holds a member of the
    archive, and the full path of every member of the archive is in the
    reverse map. *)
Theorem reconcile_matches_archive (t : InodeTable) :
  archive_indexed a →
  (∀ i d,
     FUSE_ROOT_ID < i →
     inodes (update_inodes_loops a t).1 !! i = Some (Some d) →
     is_Some (files_hash a !! FrFileData.original_path d))
  ∧ (∀ fdata,
       fdata ∈ files a →
       is_Some (paths (update_inodes_loops a t).1
                  !! FrFileData.full_path fdata)).
Proof.
  intros Hindexed. unfold update_inodes_loops. split.
  - intros i d Hi Hslot.
    apply add_loop_slots in Hslot as [Hslot|Hin]; [|by apply Hindexed].
    eapply (remove_loop_done a); [apply inode_start_seq| |exact Hslot].
    apply lookup_lt_Some in Hslot as Hlen.
    rewrite remove_loop_length in Hlen. simpl in Hlen.
    apply elem_of_seq. unfold FR_FUSE_INODE_START. lia.
  - intros fdata Hin. by apply add_loop_has.
Qed.

(** X13: a reconciliation keeps the agreement of the table and the reverse
    map. *)
Theorem reconcile_keeps_agreement (t : InodeTable) :
  agreement t → agreement (update_inodes_loops a t).1.
Proof.
  intros Hagree. unfold update_inodes_loops.
  assert (∀ l st, agreement st.1 →
            agreement (foldl (update_remove_step a) st l).1) as Hremove.
  { induction l as [|k l IH]; intros st Hst; simpl; [done|].
    apply IH. unfold update_remove_step.
    destruct (inodes st.1 !! k) as [[fdata|]|]; try done.
    case_bool_decide; [done|]. simpl. by apply agreement_delete. }
  assert (∀ l st, agreement st.1 →
            agreement (foldl update_add_step st l).1) as Hadd.
  { induction l as [|f l IH]; intros st Hst; simpl; [done|].
    apply IH. unfold update_add_step.
    case_bool_decide as Hin; [done|]. simpl.
    apply agreement_create_entry; [done|].
    destruct (paths st.1 !! FrFileData.full_path f) eqn:Hp; [|done].
    destruct Hin. by eexists. }
  by apply Hadd, Hremove.
Qed.

(** X14: a reconciliation never shrinks the table and never moves an entry:
    a live slot past the root whose original path is still in the archive
    keeps its inode and its descriptor, a live slot past the root whose
    original path is gone becomes a hole, and a hole stays a hole. *)
Theorem reconcile_keeps_inodes (t : InodeTable) (i : nat) :
  length (inodes t) ≤ length (inodes (update_inodes_loops a t).1)
  ∧ (∀ d,
       inodes t !! i = Some (Some d) →
       is_Some (files_hash a !! FrFileData.original_path d) →
       inodes (update_inodes_loops a t).1 !! i = Some (Some d))
  ∧ (∀ d,
       FUSE_ROOT_ID < i →
       inodes t !! i = Some (Some d) →
       files_hash a !! FrFileData.original_path d = None →
       inodes (update_inodes_loops a t).1 !! i = Some None)
  ∧ (inodes t !! i = Some None →
     inodes (update_inodes_loops a t).1 !! i = Some None).
Proof.
  unfold update_inodes_loops. split_and!.
  - assert (∀ l st, length (inodes st.1)
                    ≤ length (inodes (foldl update_add_step st l).1)) as Hadd.
    { induction l as [|f l IH]; intros st; simpl; [done|].
      etrans; [|apply IH]. unfold update_add_step.
      case_bool_decide; [done|]. simpl. rewrite length_app. lia. }
    etrans; [|apply Hadd]. by rewrite remove_loop_length.
  - intros d Hslot Hin. apply add_loop_prefix. by apply remove_loop_kept.
  - intros d Hi Hslot Hgone. apply add_loop_prefix.
    destruct (remove_loop_lookup a
                (seq FR_FUSE_INODE_START
                   (length (inodes t) - FR_FUSE_INODE_START))
                (t, []) i) as [Heq|Hnone]; [|done].
    simpl in Heq. rewrite Hslot in Heq.
    assert (is_Some (files_hash a !! FrFileData.original_path d)) as [x Hx].
    { eapply (remove_loop_done a); [apply inode_start_seq| |exact Heq].
      by eapply elem_of_inode_seq. }
    congruence.
  - intros Hslot. apply add_loop_prefix. by apply remove_loop_hole.
Qed.

End ReconcileProperties.

Section ReconcileTrace.

Variable a : FrArchive.

Lemma remove_step_other st k i :
  i ≠ k →
  inodes (update_remove_step a st k).1 !! i = inodes st.1 !! i.
Proof.
  intros Hne. unfold update_remove_step.
  destruct (inodes st.1 !! k) as [[fdata|]|]; try done.
  case_bool_decide; [done|]. simpl. by apply delete_inode_other.
Qed.

Lemma remove_loop_trace l st :
  NoDup l →
  ∃ dels,
    (foldl (update_remove_step a) st l).2
    = st.2 ++ (call_delete_inode <$> dels)
    ∧ Forall (λ i, i ∈ l
                   ∧ ∃ d, inodes st.1 !! i = Some (Some d)
                          ∧ files_hash a !! FrFileData.original_path d = None)
        dels.
Proof.
  revert st. induction l as [|k l IH]; intros st Hnodup; simpl.
  - exists []. simpl. by rewrite app_nil_r.
  - apply NoDup_cons in Hnodup as [Hk Hnodup].
    destruct (IH (update_remove_step a st k) Hnodup) as (dels & Hlog & Hdels).
    assert (Forall (λ i, i ∈ k :: l
                         ∧ ∃ d, inodes st.1 !! i = Some (Some d)
                                ∧ files_hash a !! FrFileData.original_path d
                                  = None) dels) as Hdels'.
    { eapply Forall_impl; [exact Hdels|]. simpl.
      intros i (Hi & d & Hslot & Hgone). split; [apply elem_of_cons; by right|].
      exists d. split; [|done]. rewrite <- Hslot. symmetry.
      apply remove_step_other. intros ->. done. }
    unfold update_remove_step in Hlog |- *.
    destruct (inodes st.1 !! k) as [[fdata|]|] eqn:Hslot;
      [|by exists dels..].
    case_bool_decide as Hhash; [by exists dels|].
    exists (k :: dels). split.
    + rewrite Hlog. simpl. by rewrite <- app_assoc.
    + constructor; [|done]. split; [apply elem_of_cons; by left|].
      exists fdata. split; [done|].
      destruct (files_hash a !! FrFileData.original_path fdata) eqn:Hh;
        [|done].
      destruct Hhash. by eexists.
Qed.

Lemma add_loop_trace l st :
  ∃ adds,
    (foldl update_add_step st l).2 = st.2 ++ (call_create_inode <$> adds)
    ∧ adds `sublist_of` l
    ∧ length (inodes (foldl update_add_step st l).1)
      = length (inodes st.1) + length adds.
Proof.
  revert st. induction l as [|f l IH]; intros st; simpl.
  - exists []. simpl. rewrite app_nil_r. split_and!; [done|done|lia].
  - destruct (IH (update_add_step st f)) as (adds & Hlog & Hsub & Hlen).
    unfold update_add_step in Hlog, Hlen |- *.
    case_bool_decide.
    + exists adds. split_and!; [done|by apply sublist_cons|done].
    + exists (f :: adds). simpl in *. split_and!.
      * rewrite Hlog. by rewrite <- app_assoc.
      * by apply sublist_skip.
      * rewrite Hlen, length_app. simpl. lia.
Qed.

(** X15: the calls of a reconciliation are deletions first, then creations:
    the deletions are of live slots past the root whose original path is not
    in the archive, the creations are of members of the archive, in the
    order of its listing, and the table grows by one slot for each
    creation. *)
Theorem reconcile_deletes_then_creates (t : InodeTable) :
  ∃ dels adds,
    (update_inodes_loops a t).2
    = (call_delete_inode <$> dels) ++ (call_create_inode <$> adds)
    ∧ Forall (λ i, FUSE_ROOT_ID < i
                   ∧ ∃ d, inodes t !! i = Some (Some d)
                          ∧ files_hash a !! FrFileData.original_path d = None)
        dels
    ∧ adds `sublist_of` files a
    ∧ length (inodes (update_inodes_loops a t).1)
      = length (inodes t) + length adds.
Proof.
  unfold update_inodes_loops.
  destruct (remove_loop_trace
              (seq FR_FUSE_INODE_START
                 (length (inodes t) - FR_FUSE_INODE_START))
              (t, []) (NoDup_seq _ _)) as (dels & Hdel & Hdels).
  destruct (add_loop_trace (files a)
              (foldl (update_remove_step a) (t, [])
                 (seq FR_FUSE_INODE_START
                    (length (inodes t) - FR_FUSE_INODE_START))))
    as (adds & Hadd & Hsub & Hlen).
  exists dels, adds. split_and!.
  - rewrite Hadd, Hdel. done.
  - eapply Forall_impl; [exact Hdels|]. simpl.
    intros i (Hi & d & Hslot & Hgone). split; [|by exists d].
    apply elem_of_seq in Hi. unfold FR_FUSE_INODE_START in Hi. lia.
  - done.
  - rewrite Hlen. by rewrite remove_loop_length.
Qed.

Lemma add_loop_fresh l st :
  NoDup (FrFileData.full_path <$> l) →
  (∀ f, f ∈ l → paths st.1 !! FrFileData.full_path f = None) →
  inodes (foldl update_add_step st l).1 = inodes st.1 ++ (Some <$> l)
  ∧ (foldl update_add_step st l).2 = st.2 ++ (call_create_inode <$> l).
Proof.
  revert st. induction l as [|f l IH]; intros st Hnodup Hfresh; simpl.
  - by rewrite !app_nil_r.
  - rewrite fmap_cons in Hnodup. apply NoDup_cons in Hnodup as [Hf Hnodup].
    assert (update_add_step st f
            = (_fr_fuse_create_inode st.1 (Some f),
               st.2 ++ [call_create_inode f])) as Hstep.
    { unfold update_add_step. rewrite bool_decide_eq_false_2; [done|].
      rewrite Hfresh by (apply elem_of_cons; by left). by intros [? ?]. }
    destruct (IH (update_add_step st f) Hnodup) as [Hin Hlog].
    { intros g Hg. rewrite Hstep. simpl. unfold fr_file_data_copy.
      rewrite lookup_insert_ne.
      - apply Hfresh, elem_of_cons. by right.
      - intros Heq. apply Hf. rewrite Heq.
        by apply list_elem_of_fmap_2. }
    rewrite Hin, Hlog, Hstep. simpl. by rewrite <- !app_assoc.
Qed.

(** X16: the first reconciliation after a mount, with a listing in which no
    two members share a full path, creates one inode for each member, in the
    order of the listing, and deletes nothing: the member at position k of
    the listing is given the inode [FR_FUSE_INODE_START] + k. *)
Theorem first_reconcile_numbers_listing (k : nat) (fdata : FrFileData) :
  NoDup (FrFileData.full_path <$> files a) →
  inodes (update_inodes_loops a initial_table).1
  = [None; None] ++ (Some <$> files a)
  ∧ (update_inodes_loops a initial_table).2
    = call_create_inode <$> files a
  ∧ (files a !! k = Some fdata →
     _fr_fuse_get_file_by_ino (update_inodes_loops a initial_table).1
       (FR_FUSE_INODE_START + k)
     = Some fdata).
Proof.
  intros Hnodup. unfold update_inodes_loops. simpl.
  destruct (add_loop_fresh (files a) (initial_table, []) Hnodup) as [Hin Hlog].
  { intros f _. reflexivity. }
  split_and!; [done|done|].
  intros Hk. apply get_file_by_ino_live.
  - unfold FR_FUSE_INODE_START, FUSE_ROOT_ID. lia.
  - rewrite Hin. simpl. by rewrite list_lookup_fmap, Hk.
Qed.

End ReconcileTrace.

(** ** Reads served through the extraction pipeline *)

Section PipelineProperties.

Variable g_canonicalize_filename : string → string → string.
Variable fuse_dirent_size : string → nat.
Variable fuse_dirent : string → nat → nat → list Byte.byte.
Variable scratch_file : string → string.

Lemma serve_read_of_file t w ino size off fdata :
  _fr_fuse_get_file_by_ino t ino = Some fdata →
  fr_file_data_is_dir fdata = false →
  serve g_canonicalize_filename fuse_dirent_size fuse_dirent scratch_file
    t w (Read ino size off)
  = run_effect scratch_file w
      (ArchiveExtract [FrFileData.original_path fdata]
         (mk_extract (FrFileData.original_path fdata) off size)).
Proof.
  intros Hget Hdir. apply get_file_by_ino_Some in Hget as Hino.
  unfold serve, lowlevel_ops, _fr_fuse_read.
  rewrite bool_decide_eq_false_2 by (intros ->; lia).
  rewrite Hget, Hdir. apply run_effects_single.
Qed.

(** X17: the first read of a live regular file, with no scratch copy yet and
    the member in the archive, extracts the member into the scratch
    directory, leaves the error slot alone and answers with the bytes of the
    member from the offset on, at most as many as were asked for. *)
Theorem read_extracts_and_serves
  (t : InodeTable) (w : world) (ino : nat) (size off : Z)
  (fdata : FrFileData) (bytes : list Byte.byte) :
  _fr_fuse_get_file_by_ino t ino = Some fdata →
  fr_file_data_is_dir fdata = false →
  work w !! scratch_file (FrFileData.original_path fdata) = None →
  members w !! FrFileData.original_path fdata = Some bytes →
  (0 ≤ off < 2 ^ 63)%Z →
  (0 ≤ size)%Z →
  (Z.of_nat (length bytes) < 2 ^ 64)%Z →
  serve g_canonicalize_filename fuse_dirent_size fuse_dirent scratch_file
    t w (Read ino size off)
  = (mkworld (ff_error w)
       (<[scratch_file (FrFileData.original_path fdata) := bytes]> (work w))
       (members w),
     [fuse_reply_buf (take (Z.to_nat size) (drop (Z.to_nat off) bytes))]).
Proof.
  intros Hget Hdir Hwork Hmember Hoff Hsize Hlen.
  rewrite (serve_read_of_file t w ino size off fdata Hget Hdir).
  unfold run_effect, fr_archive_extract. cbn [foldl].
  rewrite bool_decide_eq_false_2 by (rewrite Hwork; by intros [? ?]).
  rewrite Hmember.
  unfold _fr_fuse_on_extracted, record_error, g_file_load_contents.
  cbn [work ex_original_path]. rewrite lookup_insert_eq.
  unfold _fr_fuse_on_loaded. cbn [ld_off ld_size ex_off ex_size].
  by rewrite reply_buf_limited_slice.
Qed.

(** X18: while a scratch copy of a live regular file exists, a read is
    answered from that copy and changes nothing: the copy is not extracted
    again and not overwritten, whatever the archive holds by then. *)
Theorem read_reuses_scratch_copy
  (t : InodeTable) (w : world) (ino : nat) (size off : Z)
  (fdata : FrFileData) (bytes : list Byte.byte) :
  _fr_fuse_get_file_by_ino t ino = Some fdata →
  fr_file_data_is_dir fdata = false →
  work w !! scratch_file (FrFileData.original_path fdata) = Some bytes →
  (0 ≤ off < 2 ^ 63)%Z →
  (0 ≤ size)%Z →
  (Z.of_nat (length bytes) < 2 ^ 64)%Z →
  serve g_canonicalize_filename fuse_dirent_size fuse_dirent scratch_file
    t w (Read ino size off)
  = (w, [fuse_reply_buf (take (Z.to_nat size) (drop (Z.to_nat off) bytes))]).
Proof.
  intros Hget Hdir Hwork Hoff Hsize Hlen.
  rewrite (serve_read_of_file t w ino size off fdata Hget Hdir).
  unfold run_effect, fr_archive_extract. cbn [foldl].
  rewrite bool_decide_eq_true_2 by (by rewrite Hwork).
  unfold _fr_fuse_on_extracted, record_error, g_file_load_contents.
  cbn [work ex_original_path]. rewrite Hwork.
  unfold _fr_fuse_on_loaded. cbn [ld_off ld_size ex_off ex_size].
  by rewrite reply_buf_limited_slice.
Qed.

(** X19: a read of a live regular file that can be neither found in the
    scratch directory nor extracted from the archive is still answered, with
    an empty buffer and not with an error; the failure is only recorded in
    the error slot, and the scratch directory is left as it was. *)
Theorem read_failure_is_answered_empty
  (t : InodeTable) (w : world) (ino : nat) (size off : Z)
  (fdata : FrFileData) :
  _fr_fuse_get_file_by_ino t ino = Some fdata →
  fr_file_data_is_dir fdata = false →
  work w !! scratch_file (FrFileData.original_path fdata) = None →
  members w !! FrFileData.original_path fdata = None →
  ∃ e,
    serve g_canonicalize_filename fuse_dirent_size fuse_dirent scratch_file
      t w (Read ino size off)
    = (mkworld (Some e) (work w) (members w), [fuse_reply_buf []]).
Proof.
  intros Hget Hdir Hwork Hmember.
  rewrite (serve_read_of_file t w ino size off fdata Hget Hdir).
  unfold run_effect, fr_archive_extract. cbn [foldl].
  rewrite bool_decide_eq_false_2 by (rewrite Hwork; by intros [? ?]).
  rewrite Hmember.
  unfold _fr_fuse_on_extracted, record_error, g_file_load_contents.
  cbn [work ex_original_path]. rewrite Hwork.
  unfold _fr_fuse_on_loaded, record_error. cbn [work members].
  eexists. f_equal. f_equal.
  unfold _fr_fuse_reply_buf_limited.
  destruct (_ <? _)%Z; [|done]. by rewrite drop_nil, take_nil.
Qed.

(** X20: a release of a live regular file followed by a read of it answers
    with the bytes the archive holds at the time of the read, not with those
    of the scratch copy the release removed. *)
Theorem read_after_release_is_fresh
  (t : InodeTable) (w : world) (ino : nat) (size off : Z)
  (fdata : FrFileData) (bytes : list Byte.byte) :
  _fr_fuse_get_file_by_ino t ino = Some fdata →
  fr_file_data_is_dir fdata = false →
  members w !! FrFileData.original_path fdata = Some bytes →
  (0 ≤ off < 2 ^ 63)%Z →
  (0 ≤ size)%Z →
  (Z.of_nat (length bytes) < 2 ^ 64)%Z →
  serve g_canonicalize_filename fuse_dirent_size fuse_dirent scratch_file t
    (serve g_canonicalize_filename fuse_dirent_size fuse_dirent scratch_file
       t w (Release ino)).1
    (Read ino size off)
  = (mkworld (ff_error w)
       (<[scratch_file (FrFileData.original_path fdata) := bytes]> (work w))
       (members w),
     [fuse_reply_buf (take (Z.to_nat size) (drop (Z.to_nat off) bytes))]).
Proof.
  intros Hget Hdir Hmember Hoff Hsize Hlen.
  rewrite (serve_read_of_file t _ ino size off fdata Hget Hdir).
  unfold serve at 1, lowlevel_ops.
  rewrite (release_of_file_effects scratch_file t (work w) ino fdata Hget
             Hdir).
  assert (∀ w', members w' = members w → ff_error w' = ff_error w →
            work w' !! scratch_file (FrFileData.original_path fdata) = None →
            <[scratch_file (FrFileData.original_path fdata) := bytes]>
              (work w')
            = <[scratch_file (FrFileData.original_path fdata) := bytes]>
                (work w) →
            run_effect scratch_file w'
              (ArchiveExtract [FrFileData.original_path fdata]
                 (mk_extract (FrFileData.original_path fdata) off size))
            = (mkworld (ff_error w)
                 (<[scratch_file (FrFileData.original_path fdata) := bytes]>
                    (work w))
                 (members w),
               [fuse_reply_buf
                  (take (Z.to_nat size) (drop (Z.to_nat off) bytes))]))
    as Hread.
  { intros w' Hm He Hw' Hins.
    unfold run_effect, fr_archive_extract. cbn [foldl].
    rewrite bool_decide_eq_false_2 by (rewrite Hw'; by intros [? ?]).
    rewrite Hm, Hmember.
    unfold _fr_fuse_on_extracted, record_error, g_file_load_contents.
    cbn [work ex_original_path]. rewrite lookup_insert_eq.
    unfold _fr_fuse_on_loaded. cbn [ld_off ld_size ex_off ex_size].
    rewrite reply_buf_limited_slice by done. by rewrite He, Hins. }
  case_bool_decide as Hex.
  - rewrite run_effects_single. cbn [run_effect fst].
    apply Hread; cbn [work members ff_error]; try done.
    + apply lookup_delete_eq.
    + apply insert_delete_eq.
  - cbn [run_effects foldl fst]. apply Hread; try done.
    destruct (work w !! _) eqn:Hw; [|done]. destruct Hex. by eexists.
Qed.

End PipelineProperties.

(** ** Mounting, unmounting and disposing *)

(** X21: a mount leaves the bridge started exactly when it was started
    already, or the kernel mount and the creation of the loop thread both
    succeed and no error was recorded in the bridge before.  A mount that
    starts the bridge gives it the table with the two reserved holes and the
    loop thread; one that does not leaves the table as it was and the mount
    directory withheld. *)
Theorem mount_starts_iff (h : host) (ff : FrFuse) :
  (started (fr_fuse_mount h ff) = true
   ↔ started ff = true
     ∨ (fuse_session_mount_ok h = true
        ∧ g_thread_try_new_ok h = true
        ∧ error ff = None))
  ∧ (started ff = false →
     started (fr_fuse_mount h ff) = true →
     table (fr_fuse_mount h ff) = Some initial_table
     ∧ loop_thread (fr_fuse_mount h ff) = Some ()
     ∧ error (fr_fuse_mount h ff) = None)
  ∧ (started (fr_fuse_mount h ff) = false →
     table (fr_fuse_mount h ff) = table ff
     ∧ fr_fuse_get_mount_dir (fr_fuse_mount h ff) = None).
Proof.
  unfold fr_fuse_mount, fr_fuse_get_mount_dir.
  destruct (started ff) eqn:Hs; simpl.
  - rewrite Hs. split_and!; [split; [by left|done]|done|done].
  - destruct (fuse_session_mount_ok h), (g_thread_try_new_ok h),
      (error ff) as [e|]; simpl; rewrite ?Hs;
      (split_and!;
         [split; [try done; intros _; right; done|intros [?|(?&?&?)]; done]
         |done|done]).
Qed.

(** X22: construction fails exactly when the creation of the session, the
    kernel mount or the creation of the loop thread fails; a failed creation
    of the session is recorded as [FR_FUSE_ERROR_FUSE_NEW] and a failed
    kernel mount as [FR_FUSE_ERROR_FUSE_MOUNT]. *)
Theorem new_fails_iff (h : host) (a : FrArchive) (pw : option string) :
  (fr_fuse_new h a pw = None
   ↔ fuse_session_new_ok h = false
     ∨ fuse_session_mount_ok h = false
     ∨ g_thread_try_new_ok h = false)
  ∧ (fuse_session_new_ok h = false →
     error (fr_fuse_init h) = Some FR_FUSE_ERROR_FUSE_NEW)
  ∧ (fuse_session_new_ok h = true →
     fuse_session_mount_ok h = false →
     error (fr_fuse_init h) = Some FR_FUSE_ERROR_FUSE_MOUNT).
Proof.
  unfold fr_fuse_new, fr_fuse_init, fr_fuse_mount.
  destruct (fuse_session_new_ok h), (fuse_session_mount_ok h),
    (g_thread_try_new_ok h); simpl;
    (split_and!; [split; [try done; intros _; auto|
                          try done; intros [?|[?|?]]; done]|done|done]).
Qed.

(** X23: an unmount leaves the bridge not started, with no mount directory
    handed out and, if it was started, without its table; a second unmount
    changes nothing, and a reconciliation of an unmounted bridge does
    nothing. *)
Theorem unmount_stops (ff : FrFuse) :
  started (fr_fuse_unmount ff) = false
  ∧ fr_fuse_get_mount_dir (fr_fuse_unmount ff) = None
  ∧ (started ff = true → table (fr_fuse_unmount ff) = None)
  ∧ fr_fuse_unmount (fr_fuse_unmount ff) = fr_fuse_unmount ff
  ∧ fr_fuse_update_inodes (fr_fuse_unmount ff)
    = Some (fr_fuse_unmount ff, []).
Proof.
  unfold fr_fuse_unmount, fr_fuse_get_mount_dir, fr_fuse_update_inodes.
  destruct (started ff) eqn:Hs; simpl; rewrite ?Hs; by split_and!.
Qed.

(** X24: a bridge that is unmounted and mounted again, with no error
    recorded and the mount succeeding, starts from the table with the two
    reserved holes: the inode numbers of the earlier mount are not kept. *)
Theorem remount_resets_table (h : host) (ff : FrFuse) :
  error ff = None →
  fuse_session_mount_ok h = true →
  g_thread_try_new_ok h = true →
  started (fr_fuse_mount h (fr_fuse_unmount ff)) = true
  ∧ (started ff = true →
     table (fr_fuse_mount h (fr_fuse_unmount ff)) = Some initial_table).
Proof.
  intros Herr Hmount Hthread.
  unfold fr_fuse_mount, fr_fuse_unmount.
  destruct (started ff) eqn:Hs; simpl; rewrite ?Hs, ?Hmount, ?Hthread, ?Herr;
    simpl; by rewrite ?Hs.
Qed.

(** X25: a dispose leaves the bridge not started, without its archive and
    its two directories, and, if it was started, without its table; it asks
    for the removal of the mount directory, then of the scratch directory;
    a second dispose changes nothing and removes nothing. *)
Theorem dispose_is_final (ff : FrFuse) :
  started (fr_fuse_dispose ff).1 = false
  ∧ archive (fr_fuse_dispose ff).1 = None
  ∧ fr_fuse_get_mount_dir (fr_fuse_dispose ff).1 = None
  ∧ (started ff = true → table (fr_fuse_dispose ff).1 = None)
  ∧ (fr_fuse_dispose ff).2 = omap id [mount_dir ff; work_dir ff]
  ∧ fr_fuse_dispose (fr_fuse_dispose ff).1 = ((fr_fuse_dispose ff).1, []).
Proof.
  unfold fr_fuse_dispose, fr_fuse_unmount, fr_fuse_get_mount_dir.
  destruct (started ff) eqn:Hs; simpl; rewrite ?Hs; by split_and!.
Qed.

(** ** The further properties on the small archive *)

Lemma reconcile_matches_archive_witness :
  is_Some
    (paths (update_inodes_loops (archive_of_listing [a_txt; b_txt])
              sample_table).1
       !! FrFileData.full_path a_txt).
Proof.
  apply (reconcile_matches_archive (archive_of_listing [a_txt; b_txt])
           sample_table).
  - apply archive_of_listing_indexed.
  - simpl. apply elem_of_cons. by left.
Defined.

Lemma reconcile_keeps_agreement_witness :
  agreement
    (update_inodes_loops (archive_of_listing [a_txt; b_txt])
       initial_table).1.
Proof.
  apply (reconcile_keeps_agreement (archive_of_listing [a_txt; b_txt])
           initial_table).
  apply agreement_initial.
Defined.

Lemma first_reconcile_numbers_listing_witness :
  _fr_fuse_get_file_by_ino
    (update_inodes_loops (archive_of_listing [a_txt; b_txt])
       initial_table).1
    (FR_FUSE_INODE_START + 1)
  = Some b_txt.
Proof.
  apply (first_reconcile_numbers_listing (archive_of_listing [a_txt; b_txt])
           1 b_txt).
  - refine (bool_decide_unpack _ _). vm_compute. exact I.
  - reflexivity.
Defined.

Lemma read_extracts_and_serves_witness :
  serve sample_canonicalize sample_dirent_size sample_dirent
    sample_scratch_file sample_table sample_world (Read 2 10 1)
  = (mkworld None {["/tmp/work/a.txt" := hello]} {["a.txt" := hello]},
     [fuse_reply_buf [Byte.x65; Byte.x6c; Byte.x6c; Byte.x6f]]).
Proof.
  rewrite (read_extracts_and_serves sample_canonicalize sample_dirent_size
             sample_dirent sample_scratch_file sample_table sample_world 2
             10 1 a_txt hello);
    [reflexivity|reflexivity|reflexivity|reflexivity|reflexivity|lia|lia
    |simpl; lia].
Defined.

Lemma read_reuses_scratch_copy_witness :
  serve sample_canonicalize sample_dirent_size sample_dirent
    sample_scratch_file sample_table
    (mkworld None {["/tmp/work/a.txt" := hello]} ∅) (Read 2 2 0)
  = (mkworld None {["/tmp/work/a.txt" := hello]} ∅,
     [fuse_reply_buf [Byte.x68; Byte.x65]]).
Proof.
  rewrite (read_reuses_scratch_copy sample_canonicalize sample_dirent_size
             sample_dirent sample_scratch_file sample_table
             (mkworld None {["/tmp/work/a.txt" := hello]} ∅) 2 2 0 a_txt
             hello);
    [reflexivity|reflexivity|reflexivity|reflexivity|lia|lia|simpl; lia].
Defined.

Lemma read_failure_is_answered_empty_witness :
  ∃ e,
    serve sample_canonicalize sample_dirent_size sample_dirent
      sample_scratch_file sample_table (mkworld None ∅ ∅) (Read 2 10 0)
    = (mkworld (Some e) ∅ ∅, [fuse_reply_buf []]).
Proof.
  apply (read_failure_is_answered_empty sample_canonicalize
           sample_dirent_size sample_dirent sample_scratch_file sample_table
           (mkworld None ∅ ∅) 2 10 0 a_txt); reflexivity.
Defined.

Lemma read_after_release_is_fresh_witness :
  serve sample_canonicalize sample_dirent_size sample_dirent
    sample_scratch_file sample_table
    (serve sample_canonicalize sample_dirent_size sample_dirent
       sample_scratch_file sample_table
       (mkworld None {["/tmp/work/a.txt" := [Byte.x6f; Byte.x6c; Byte.x64]]}
          {["a.txt" := hello]})
       (Release 2)).1
    (Read 2 10 0)
  = (mkworld None {["/tmp/work/a.txt" := hello]} {["a.txt" := hello]},
     [fuse_reply_buf hello]).
Proof.
  rewrite (read_after_release_is_fresh sample_canonicalize sample_dirent_size
             sample_dirent sample_scratch_file sample_table
             (mkworld None
                {["/tmp/work/a.txt" := [Byte.x6f; Byte.x6c; Byte.x64]]}
                {["a.txt" := hello]})
             2 10 0 a_txt hello);
    [vm_compute; reflexivity|reflexivity|reflexivity|reflexivity|lia|lia
    |simpl; lia].
Defined.

Lemma remount_resets_table_witness :
  table
    (fr_fuse_mount (mkhost true true true "/tmp/work" "/tmp/mount")
       (fr_fuse_unmount
          (mkFrFuse (Some (archive_of_listing [a_txt])) None (Some ())
             (Some sample_table) (Some "/tmp/mount") (Some "/tmp/work")
             (Some ()) true None)))
  = Some initial_table.
Proof.
  apply (remount_resets_table (mkhost true true true "/tmp/work" "/tmp/mount")
           (mkFrFuse (Some (archive_of_listing [a_txt])) None (Some ())
              (Some sample_table) (Some "/tmp/mount") (Some "/tmp/work")
              (Some ()) true None)); reflexivity.
Defined.
